(** * QuranAudio: the playback sequencer, the scroll synchroniser and the
      load-time merge of [src/components/QuranAudio.tsx]

    The component keeps its state in React hooks ([useState], [useRef]) and
    reacts to discrete events: a click on a surah button, a click on an ayah
    card, the [ended] notification of the [<audio>] element and the expiry
    of the two [setTimeout] pauses inside [handleEnded].  The embedding
    below passes that state explicitly, returns the commands sent to the
    audio element as a list, and represents the part of an [async] handler
    that runs after its [await] as a value of type [Pending]. *)

From Stdlib Require Import ZArith String QArith Qminmax Lia Bool List Sorted.
Import ListNotations.
Open Scope string_scope.
Open Scope list_scope.
Open Scope Z_scope.

(* ------------------------------------------------------------------ *)
(** ** Data model *)

(** [QuranResponse.data.surahs[k].ayahs[n]]: one ayah as the content API
    delivers it; [audio] is optional there. *)
Record ApiAyah := mkApiAyah {
  api_number : Z;
  api_audio  : option string;
  api_text   : string
}.

(** [QuranResponse.data.surahs[k]]. *)
Record ApiSurah := mkApiSurah {
  api_surah_number : Z;
  api_name         : string;
  api_englishName  : string;
  api_ayahs        : list ApiAyah
}.

(** [QuranResponse.data]: the ordered list of surahs of one edition. *)
Definition Edition := list ApiSurah.

(** An entry of the [surahs] state and the [surah] field of an [Ayah]. *)
Record Surah := mkSurah {
  number      : Z;
  name        : string;
  englishName : string
}.

(** [interface Ayah]. *)
Record Ayah := mkAyah {
  ayah_number     : Z;
  audio           : string;
  text            : string;
  transliteration : string;
  translation     : string;
  surah           : Surah
}.

(* ------------------------------------------------------------------ *)
(** ** JavaScript array and value helpers *)

(** [arr[i]] for a JS number [i] that holds an integer: [undefined]
    (here [None]) below 0 and from [arr.length] on. *)
Definition idx {A : Type} (l : list A) (i : Z) : option A :=
  if i <? 0 then None else nth_error l (Z.to_nat i).

(** [arr.length] as a JS number. *)
Definition len {A : Type} (l : list A) : Z := Z.of_nat (List.length l).

(** [arr.findIndex(p)]: the first position where [p] holds, [-1] when
    there is none. *)
Fixpoint findIndex {A : Type} (p : A -> bool) (l : list A) : Z :=
  match l with
  | [] => -1
  | x :: r =>
      if p x then 0
      else let k := findIndex p r in if k <? 0 then -1 else k + 1
  end.

(** [arr.map((x, i) => f i x)], the index counted from [i]. *)
Fixpoint mapi_from {A B : Type} (f : nat -> A -> B) (i : nat) (l : list A)
  : list B :=
  match l with
  | [] => []
  | x :: r => f i x :: mapi_from f (S i) r
  end.

Definition mapi {A B : Type} (f : nat -> A -> B) (l : list A) : list B :=
  mapi_from f 0 l.

(** [arr.flatMap((x, i) => f i x)]. *)
Definition flatMapi {A B : Type} (f : nat -> A -> list B) (l : list A)
  : list B :=
  concat (mapi f l).

(** [a.audio || ""]: a missing or empty locator becomes the empty string. *)
Definition orEmpty (o : option string) : string :=
  match o with
  | Some s => s
  | None => ""
  end.

(** Truthiness of a [number | null] holding an integer: [null] and [0] are
    falsy. *)
Definition truthy (o : option Z) : bool :=
  match o with
  | Some n => negb (n =? 0)
  | None => false
  end.

(** [n === o] for a number [n] and a [number | null] [o]. *)
Definition strictEq (n : Z) (o : option Z) : bool :=
  match o with
  | Some m => n =? m
  | None => false
  end.

(* ------------------------------------------------------------------ *)
(** ** Content loader: [fetchAll] *)

(** [ed.surahs?.[si]?.ayahs?.[ai]?.text ?? ""]. *)
Definition textAt (ed : Edition) (si ai : nat) : string :=
  match nth_error ed si with
  | Some s =>
      match nth_error (api_ayahs s) ai with
      | Some a => api_text a
      | None => ""
      end
  | None => ""
  end.

(** [ar.surahs.map(s => ({number, name, englishName}))]. *)
Definition surahList (ar : Edition) : list Surah :=
  map (fun s => mkSurah (api_surah_number s) (api_name s) (api_englishName s))
      ar.

(** The object literal built for the [ai]-th ayah [a] of the [si]-th surah
    [s] of the recitation edition. *)
Definition mergeAyah (tr en : Edition) (si : nat) (s : ApiSurah) (ai : nat)
  (a : ApiAyah) : Ayah :=
  {| ayah_number := api_number a;
     audio := orEmpty (api_audio a);
     text := api_text a;
     transliteration := textAt tr si ai;
     translation := textAt en si ai;
     surah := mkSurah (api_surah_number s) (api_name s) (api_englishName s) |}.

(** [const combined = ar.surahs.flatMap((s, si) => s.ayahs.map((a, ai) =>
    ...))]. *)
Definition combined (ar tr en : Edition) : list Ayah :=
  flatMapi (fun si s => mapi (mergeAyah tr en si s) (api_ayahs s)) ar.

(* ------------------------------------------------------------------ *)
(** ** Component state *)

(** The hooks the sequencer reads and writes.  [audioRef] is [None] while
    no [<audio>] element is mounted ([audioRef.current === null]) and
    [Some src] while one is, [src] being its current source. *)
Record State := mkState {
  ayahs        : list Ayah;
  surahs       : list Surah;
  currentSurah : option Z;
  currentAyah  : option Z;
  audioRef     : option string
}.

(** A command received by the playback device: [play()] called while the
    element's source is [src]. *)
Inductive Cmd := Play (src : string).

Definition setCurrentSurah (n : Z) (st : State) : State :=
  mkState (ayahs st) (surahs st) (Some n) (currentAyah st) (audioRef st).

Definition setCurrentAyah (i : Z) (st : State) : State :=
  mkState (ayahs st) (surahs st) (currentSurah st) (Some i) (audioRef st).

(** [audioRef.current.src = src] on a mounted element. *)
Definition setSrc (src : string) (st : State) : State :=
  mkState (ayahs st) (surahs st) (currentSurah st) (currentAyah st) (Some src).

(** [ayahs.filter(a => a.surah.number === n)]. *)
Definition ayahsOfSurah (n : Z) (l : list Ayah) : list Ayah :=
  filter (fun a => number (surah a) =? n) l.

(** [const filteredAyahs = currentSurah ? ayahs.filter(...) : []]. *)
Definition filteredAyahs (st : State) : list Ayah :=
  match currentSurah st with
  | Some n => if truthy (Some n) then ayahsOfSurah n (ayahs st) else []
  | None => []
  end.

(** The Playback Position: the pair of the two hooks. *)
Definition position (st : State) : option Z * option Z :=
  (currentSurah st, currentAyah st).

(** The state once [fetchAll] has succeeded: nothing selected, and no
    [<audio>] element yet, since it is rendered only under
    [currentSurah ? ... : ...]. *)
Definition loaded (ar tr en : Edition) : State :=
  mkState (combined ar tr en) (surahList ar) None None None.

(** What a re-render does to the ref: the [<audio>] element is part of the
    tree exactly when [currentSurah] is truthy; an element that stays in the
    tree keeps its source, a new one starts with none. *)
Definition render (st : State) : State :=
  mkState (ayahs st) (surahs st) (currentSurah st) (currentAyah st)
    (if truthy (currentSurah st)
     then match audioRef st with
          | Some src => Some src
          | None => Some ""
          end
     else None).

(* ------------------------------------------------------------------ *)
(** ** Playback sequencer *)

(** [onClick] of the button of surah [s] (the desktop and the mobile list
    carry the same handler). *)
Definition onClickSurah (s : Surah) (st : State) : State * list Cmd :=
  let st' := setCurrentAyah 0 (setCurrentSurah (number s) st) in
  let firstAyah := find (fun a => number (surah a) =? number s) (ayahs st) in
  match audioRef st, firstAyah with
  | Some _, Some a => (setSrc (audio a) st', [Play (audio a)])
  | _, _ => (st', [])
  end.

(** [handlePlayAyah(index)]. *)
Definition handlePlayAyah (index : Z) (st : State) : State * list Cmd :=
  match idx (filteredAyahs st) index, audioRef st with
  | Some ayah, Some _ =>
      (setCurrentAyah index (setSrc (audio ayah) st), [Play (audio ayah)])
  | _, _ => (st, [])
  end.

(** The rest of [handleEnded] after one of its two [await]s.  The closure
    keeps the [nextSurah] and the [ayahs] of the render in which the handler
    was created; [audioRef.current] is read when the rest runs. *)
Inductive Pending :=
| ResumePlay
| ResumeNextSurah (nextSurah : Surah) (ayahs0 : list Ayah).

(** [handleEnded] up to its [await]: the new state, the commands issued so
    far (none) and, when a timer was set, its delay in milliseconds with
    the code that runs when it expires. *)
Definition handleEnded (st : State)
  : State * list Cmd * option (Z * Pending) :=
  match currentAyah st, audioRef st with
  | Some cur, Some _ =>
      if (len (filteredAyahs st) =? 0) then (st, [], None)
      else
        let next := cur + 1 in
        if next <? len (filteredAyahs st) then
          let st1 := setCurrentAyah next st in
          match idx (filteredAyahs st) next with
          | Some nextAyah =>
              (setSrc (audio nextAyah) st1, [], Some (1000, ResumePlay))
          | None => (st1, [], None)   (* TypeError: the promise rejects *)
          end
        else
          let nextSurahIndex :=
            findIndex (fun s => strictEq (number s) (currentSurah st))
                      (surahs st) + 1 in
          match idx (surahs st) nextSurahIndex with
          | Some nextSurah =>
              (st, [], Some (2000, ResumeNextSurah nextSurah (ayahs st)))
          | None => (st, [], None)
          end
  | _, _ => (st, [], None)
  end.

(** The code after the [await]: what runs when the timer expires, on the
    state of that moment. *)
Definition resume (p : Pending) (st : State) : State * list Cmd :=
  match p with
  | ResumePlay =>
      match audioRef st with
      | Some src => (st, [Play src])
      | None => (st, [])             (* TypeError: the promise rejects *)
      end
  | ResumeNextSurah nextSurah ayahs0 =>
      let st' := setCurrentAyah 0 (setCurrentSurah (number nextSurah) st) in
      match ayahsOfSurah (number nextSurah) ayahs0, audioRef st with
      | a :: _, Some _ => (setSrc (audio a) st', [Play (audio a)])
      | _, _ => (st', [])
      end
  end.

(* ------------------------------------------------------------------ *)
(** ** The event loop

    Handlers run one at a time; React re-renders after each of them, and a
    timer set by [handleEnded] runs its [Pending] code once its due time is
    reached.  Times are in milliseconds. *)

Inductive Event :=
| ClickSurah (k : nat)      (* the [k]-th button of [surahs.map] *)
| ClickAyah (i : Z)         (* [handlePlayAyah(i)] *)
| Ended.                    (* the [ended] event of the audio element *)

Record World := mkWorld {
  state  : State;
  timers : list (Z * Pending);      (* by due time, earliest first *)
  trace  : list (Z * Cmd)           (* the commands issued, with their time *)
}.

Definition stamp (t : Z) (out : list Cmd) : list (Z * Cmd) :=
  map (fun c => (t, c)) out.

(** [setTimeout]: the new timer goes behind those due no later. *)
Fixpoint schedule (due : Z) (p : Pending) (ts : list (Z * Pending))
  : list (Z * Pending) :=
  match ts with
  | [] => [(due, p)]
  | (d, q) :: rest =>
      if d <=? due then (d, q) :: schedule due p rest
      else (due, p) :: (d, q) :: rest
  end.

(** Run the timers due by time [t], each at its own due time. *)
Fixpoint expire (t : Z) (ts : list (Z * Pending)) (st : State)
  (tr : list (Z * Cmd)) : World :=
  match ts with
  | [] => mkWorld st [] tr
  | (due, p) :: rest =>
      if due <=? t then
        let '(st', out) := resume p st in
        expire t rest (render st') (tr ++ stamp due out)
      else mkWorld st ts tr
  end.

(** Let every timer still pending run. *)
Fixpoint drain (ts : list (Z * Pending)) (st : State) (tr : list (Z * Cmd))
  : World :=
  match ts with
  | [] => mkWorld st [] tr
  | (due, p) :: rest =>
      let '(st', out) := resume p st in
      drain rest (render st') (tr ++ stamp due out)
  end.

Definition settle (w : World) : World :=
  drain (timers w) (state w) (trace w).

(** The event [e] arriving at time [t]. *)
Definition dispatch (t : Z) (e : Event) (w : World) : World :=
  let w1 := expire t (timers w) (state w) (trace w) in
  let st := state w1 in
  match e with
  | ClickSurah k =>
      match nth_error (surahs st) k with
      | Some s =>
          let '(st', out) := onClickSurah s st in
          mkWorld (render st') (timers w1) (trace w1 ++ stamp t out)
      | None => w1
      end
  | ClickAyah i =>
      let '(st', out) := handlePlayAyah i st in
      mkWorld (render st') (timers w1) (trace w1 ++ stamp t out)
  | Ended =>
      let '(st', out, timer) := handleEnded st in
      mkWorld (render st')
        (match timer with
         | Some (delay, p) => schedule (t + delay) p (timers w1)
         | None => timers w1
         end)
        (trace w1 ++ stamp t out)
  end.

Fixpoint run (evs : list (Z * Event)) (w : World) : World :=
  match evs with
  | [] => w
  | (t, e) :: rest => run rest (dispatch t e w)
  end.

(** The events that come from the user: a click on a surah button or on an
    ayah card. *)
Definition isManual (e : Event) : bool :=
  match e with
  | ClickSurah _ | ClickAyah _ => true
  | Ended => false
  end.

(** The world right after a successful load. *)
Definition boot (ar tr en : Edition) : World :=
  mkWorld (loaded ar tr en) [] [].

(* ------------------------------------------------------------------ *)
(** ** Focus synchroniser *)

(** The DOM measurements the two layout effects read.  [offsetTop],
    [offsetHeight] and [clientHeight] are integers in the DOM; [attached]
    stands for [offsetParent !== null]. *)
Record Elem := mkElem {
  attached     : bool;
  offsetTop    : Z;
  offsetHeight : Z;
  clientHeight : Z
}.

Inductive Behavior := BehaviorAuto | BehaviorSmooth.

(** The argument of [container.scrollTo]. *)
Record ScrollTo := mkScrollTo {
  top      : Q;
  behavior : Behavior
}.

(** [node.offsetTop - container.clientHeight / 2 + node.offsetHeight / 2];
    halving an integer is exact in a JS number, so the value is the
    rational one. *)
Definition offset (container node : Elem) : Q :=
  (inject_Z (offsetTop node) - inject_Z (clientHeight container) / 2
   + inject_Z (offsetHeight node) / 2)%Q.

(** The callback both effects hand to [requestAnimationFrame]. *)
Definition scrollFrame (prefersReducedMotion : bool) (container node : Elem)
  : ScrollTo :=
  {| top := Qmax (offset container node) 0;
     behavior := if prefersReducedMotion then BehaviorAuto else BehaviorSmooth |}.

Definition isVisible (el : option Elem) : bool :=
  match el with
  | Some e => attached e
  | None => false
  end.

Definition isSome {A : Type} (a : option A) : bool :=
  match a with
  | Some _ => true
  | None => false
  end.

(** [a ?? b]. *)
Definition orElse {A : Type} (a b : option A) : option A :=
  match a with
  | Some x => Some x
  | None => b
  end.

(** [refs.current[index]] of an array of [element | null]. *)
Definition refAt (refs : list (option Elem)) (index : Z) : option Elem :=
  match idx refs index with
  | Some (Some e) => Some e
  | _ => None
  end.

(** The refs of the two surah lists and of the ayah list. *)
Record Dom := mkDom {
  surahMobileScrollRef : option Elem;
  surahScrollRef       : option Elem;
  surahMobileRefs      : list (option Elem);
  surahDesktopRefs     : list (option Elem);
  ayahScrollRef        : option Elem;
  ayahRefs             : list (option Elem)
}.

Definition getActiveSurahContext (dom : Dom) (index : Z)
  : option Elem * option Elem :=
  let mobileContainer := surahMobileScrollRef dom in
  let desktopContainer := surahScrollRef dom in
  let mobileNode := refAt (surahMobileRefs dom) index in
  let desktopNode := refAt (surahDesktopRefs dom) index in
  if isVisible mobileContainer && isSome mobileNode then
    (mobileContainer, mobileNode)
  else if isVisible desktopContainer && isSome desktopNode then
    (desktopContainer, desktopNode)
  else
    (orElse mobileContainer desktopContainer, orElse mobileNode desktopNode).

(** The layout effect on [currentSurah]: the scroll it requests, if any. *)
Definition surahScrollEffect (prefersReducedMotion : bool) (dom : Dom)
  (st : State) : option ScrollTo :=
  match currentSurah st with
  | None => None
  | Some _ =>
      let index :=
        findIndex (fun s => strictEq (number s) (currentSurah st))
                  (surahs st) in
      if index =? -1 then None
      else
        match getActiveSurahContext dom index with
        | (Some container, Some node) =>
            Some (scrollFrame prefersReducedMotion container node)
        | _ => None
        end
  end.

(** The layout effect on [currentAyah]. *)
Definition ayahScrollEffect (prefersReducedMotion : bool) (dom : Dom)
  (st : State) : option ScrollTo :=
  match currentAyah st with
  | None => None
  | Some i =>
      match ayahScrollRef dom, refAt (ayahRefs dom) i with
      | Some container, Some node =>
          Some (scrollFrame prefersReducedMotion container node)
      | _, _ => None
      end
  end.

(* ------------------------------------------------------------------ *)
(** ** Definitions that follow the specification's wording *)

(** "The section with the smallest identifier greater than S's": the
    minimum, by identifier, of the sections whose identifier exceeds [S]
    (the first such one when several share it). *)
Fixpoint smallestGreater (S : Z) (l : list Surah) : option Surah :=
  match l with
  | [] => None
  | s :: r =>
      let best := smallestGreater S r in
      if S <? number s then
        match best with
        | Some m => if number m <? number s then Some m else Some s
        | None => Some s
        end
      else best
  end.

(** The number of items of the sections before the [K]-th: where the
    [K]-th section starts in the merged list. *)
Fixpoint itemsBefore (ar : Edition) (K : nat) : nat :=
  match K, ar with
  | S k, s :: r => (length (api_ayahs s) + itemsBefore r k)%nat
  | _, _ => 0%nat
  end.

(** The texts of an edition by position, identifiers and labels left
    out. *)
Definition textsOf (ed : Edition) : list (list string) :=
  map (fun s => map api_text (api_ayahs s)) ed.

(** An item index that is present is a valid index into the filtered item
    list of the current section. *)
Definition validIndex (st : State) : Prop :=
  match currentAyah st with
  | Some i => 0 <= i < len (filteredAyahs st)
  | None => True
  end.

(** The section list is in ascending order of identifier, without
    repetition (the ordering contract of the data model). *)
Definition ascending (l : list Surah) : Prop :=
  StronglySorted Z.lt (map number l).

(** The state is as the last render left it: the audio element is mounted
    exactly when a section is selected. *)
Definition rendered (st : State) : Prop := render st = st.

(* ------------------------------------------------------------------ *)
(** ** Sample content

    Four sections: the first with three items, the second of which has
    no audio; the second with one item; the third with none; the fourth
    with one.  The transliteration edition stops after the first item of the
    first section, and the translation edition is empty. *)

Definition sample_ar : Edition :=
  [ mkApiSurah 1 "al-fatiha" "The Opening"
      [ mkApiAyah 1 (Some "https://cdn.example/1.mp3") "alif";
        mkApiAyah 2 None "ba";
        mkApiAyah 3 (Some "https://cdn.example/3.mp3") "ta" ];
    mkApiSurah 2 "al-baqara" "The Cow"
      [ mkApiAyah 4 (Some "https://cdn.example/4.mp3") "tha" ];
    mkApiSurah 3 "al-imran" "The Family of Imran" [];
    mkApiSurah 4 "an-nisa" "The Women"
      [ mkApiAyah 5 (Some "https://cdn.example/5.mp3") "jim" ] ].

Definition sample_tr : Edition :=
  [ mkApiSurah 1 "al-fatiha" "The Opening"
      [ mkApiAyah 1 None "alif (tr)" ] ].

Definition sample_en : Edition := [].

(** The sample content loaded, the first section selected by a first click
    and its first item selected by a click on its card. *)
Definition sample_playing : World :=
  run [(0, ClickSurah 0); (100, ClickAyah 0)]
      (boot sample_ar sample_tr sample_en).

(* ------------------------------------------------------------------ *)
(** ** What the render shows of the Playback Position *)


(** [s && <p>...</p>]: the paragraph, unless the string is empty. *)
Definition whenNonEmpty (s : string) : option string :=
  match s with
  | EmptyString => None
  | _ => Some s
  end.



(** One card of [filteredAyahs.map((a, i) => ...)]. *)
Record Card := mkCard {
  card_label           : Z;            (* [i + 1] *)
  card_playing         : bool;         (* [i === currentAyah] *)
  card_text            : string;
  card_transliteration : option string;
  card_translation     : option string
}.

Definition cards (st : State) : list Card :=
  mapi (fun i a =>
          {| card_label := Z.of_nat i + 1;
             card_playing := strictEq (Z.of_nat i) (currentAyah st);
             card_text := text a;
             card_transliteration := whenNonEmpty (transliteration a);
             card_translation := whenNonEmpty (translation a) |})
       (filteredAyahs st).

(* ------------------------------------------------------------------ *)
(** ** Helpers for statements about runs *)

(** [k] ends of playback, the first at [t], one every [gap]
    milliseconds. *)
Fixpoint endedEvery (t gap : Z) (k : nat) : list (Z * Event) :=
  match k with
  | O => []
  | S k' => (t, Ended) :: endedEvery (t + gap) gap k'
  end.

(** One play command per item, each a second after an end of playback,
    the ends being [gap] apart from [t] on. *)
Fixpoint pausedPlays (t gap : Z) (items : list Ayah) : list (Z * Cmd) :=
  match items with
  | [] => []
  | a :: r => (t + 1000, Play (audio a)) :: pausedPlays (t + gap) gap r
  end.

(** A pending action agrees with the content [A], [L]: the section it
    will select is one of the list [L] and the items it kept are [A]. *)
Definition pendingFor (A : list Ayah) (L : list Surah) (p : Pending) : Prop :=
  match p with
  | ResumePlay => True
  | ResumeNextSurah nextSurah ayahs0 => In nextSurah L /\ ayahs0 = A
  end.

(* ================================================================== *)
(** * Properties *)

(* ------------------------------------------------------------------ *)
(** ** Array helpers *)

Lemma idx_nat {A : Type} (l : list A) (n : nat) :
  idx l (Z.of_nat n) = nth_error l n.
Proof.
  unfold idx. destruct (Z.ltb_spec (Z.of_nat n) 0); [lia|].
  now rewrite Nat2Z.id.
Qed.

Lemma idx_Some_range {A : Type} (l : list A) (i : Z) (x : A) :
  idx l i = Some x -> 0 <= i < len l.
Proof.
  unfold idx, len. destruct (Z.ltb_spec i 0); [discriminate|].
  intros E. assert (Hn : nth_error l (Z.to_nat i) <> None) by congruence.
  apply nth_error_Some in Hn. lia.
Qed.

Lemma idx_in_range {A : Type} (l : list A) (i : Z) :
  0 <= i < len l -> exists x, idx l i = Some x.
Proof.
  unfold idx, len. intros H. destruct (Z.ltb_spec i 0); [lia|].
  destruct (nth_error l (Z.to_nat i)) eqn:E; [eauto|].
  apply nth_error_None in E. lia.
Qed.

Lemma idx_out_of_range {A : Type} (l : list A) (i : Z) :
  i < 0 \/ len l <= i -> idx l i = None.
Proof.
  unfold idx, len. intros H. destruct (Z.ltb_spec i 0); [reflexivity|].
  apply nth_error_None. lia.
Qed.

Lemma mapi_from_length {A B : Type} (f : nat -> A -> B) (l : list A) (i : nat) :
  length (mapi_from f i l) = length l.
Proof.
  revert i. induction l as [|x r IH]; intros i; simpl; [reflexivity|].
  now rewrite IH.
Qed.

Lemma mapi_length {A B : Type} (f : nat -> A -> B) (l : list A) :
  length (mapi f l) = length l.
Proof. apply mapi_from_length. Qed.

Lemma nth_error_mapi_from {A B : Type} (f : nat -> A -> B) (l : list A) :
  forall (i n : nat) (x : A),
    nth_error l n = Some x ->
    nth_error (mapi_from f i l) n = Some (f (i + n)%nat x).
Proof.
  induction l as [|y r IH]; intros i n x E.
  - destruct n; discriminate.
  - destruct n as [|n]; simpl in *.
    + injection E as ->. now rewrite Nat.add_0_r.
    + rewrite (IH (S i) n x E). f_equal. f_equal. lia.
Qed.

Lemma nth_error_mapi {A B : Type} (f : nat -> A -> B) (l : list A) (n : nat)
  (x : A) :
  nth_error l n = Some x -> nth_error (mapi f l) n = Some (f n x).
Proof. intros E. apply (nth_error_mapi_from f l 0 n x E). Qed.

(* ------------------------------------------------------------------ *)
(** ** The load-time merge *)

Section Merge.

Variables tr en : Edition.

(** The block of surah [K] starts at [itemsBefore ar K] in the
    concatenation, whatever index the numbering of the surahs starts
    from. *)
Lemma nth_error_blocks (ar : Edition) :
  forall (i K N : nat) (s : ApiSurah) (a : ApiAyah),
    nth_error ar K = Some s ->
    nth_error (api_ayahs s) N = Some a ->
    nth_error
      (concat (mapi_from
                 (fun si s => mapi (mergeAyah tr en si s) (api_ayahs s))
                 i ar))
      (itemsBefore ar K + N)
    = Some (mergeAyah tr en (i + K) s N a).
Proof.
  induction ar as [|s0 r IH]; intros i K N s a Hs Ha.
  - destruct K; discriminate.
  - destruct K as [|K]; simpl in *.
    + injection Hs as ->.
      rewrite nth_error_app1.
      * rewrite (nth_error_mapi _ _ N a Ha).
        now rewrite Nat.add_0_r.
      * rewrite mapi_length. apply nth_error_Some. congruence.
    + rewrite nth_error_app2; rewrite mapi_length; [|lia].
      replace (length (api_ayahs s0) + itemsBefore r K + N
               - length (api_ayahs s0))%nat
        with (itemsBefore r K + N)%nat by lia.
      rewrite (IH (S i) K N s a Hs Ha). do 2 f_equal. lia.
Qed.

Lemma combined_length_from (ar : Edition) (i : nat) :
  length (concat (mapi_from
                    (fun si s => mapi (mergeAyah tr en si s) (api_ayahs s))
                    i ar))
  = length (concat (map api_ayahs ar)).
Proof.
  revert i. induction ar as [|s r IH]; intros i; simpl; [reflexivity|].
  now rewrite !length_app, IH, mapi_length.
Qed.

End Merge.

Lemma textAt_ext (ed ed' : Edition) (si ai : nat) :
  textsOf ed = textsOf ed' -> textAt ed si ai = textAt ed' si ai.
Proof.
  intros E. unfold textAt.
  assert (H : nth_error (textsOf ed) si = nth_error (textsOf ed') si)
    by now rewrite E.
  unfold textsOf in H. rewrite !nth_error_map in H.
  destruct (nth_error ed si) as [s|], (nth_error ed' si) as [s'|];
    simpl in H; try discriminate; [|reflexivity].
  injection H as H.
  assert (H' : nth_error (map api_text (api_ayahs s)) ai
               = nth_error (map api_text (api_ayahs s')) ai) by now rewrite H.
  rewrite !nth_error_map in H'.
  destruct (nth_error (api_ayahs s) ai), (nth_error (api_ayahs s') ai);
    simpl in H'; congruence.
Qed.

Lemma mapi_from_ext {A B : Type} (f g : nat -> A -> B) (l : list A) :
  (forall i x, f i x = g i x) ->
  forall i, mapi_from f i l = mapi_from g i l.
Proof.
  intros H. induction l as [|x r IH]; intros i; simpl; [reflexivity|].
  now rewrite H, IH.
Qed.

Lemma combined_texts_only (ar tr en tr' en' : Edition) :
  textsOf tr = textsOf tr' -> textsOf en = textsOf en' ->
  combined ar tr en = combined ar tr' en'.
Proof.
  intros Ht He. unfold combined, flatMapi, mapi. f_equal.
  apply mapi_from_ext. intros si s. apply mapi_from_ext. intros ai a.
  unfold mergeAyah. now rewrite (textAt_ext tr tr'), (textAt_ext en en').
Qed.

(** C9. The merge is positional and total: item [N] of section [K] of the
    recitation edition yields the merged item at position
    [itemsBefore ar K + N]; its identifier, native text and section
    labels come from that recitation item and its section, its locator is
    the one of that recitation item when it has one and the empty string
    when it has none, its transliteration and translation are the texts
    at position [(K, N)] of the other two editions when such an item
    exists there and the empty string otherwise; the merged list has exactly one item per
    recitation item, and the identifiers and labels of the other two
    editions play no part in it. *)
Theorem combined_positional :
  forall (ar tr en : Edition) (K N : nat) (s : ApiSurah) (a : ApiAyah),
    nth_error ar K = Some s ->
    nth_error (api_ayahs s) N = Some a ->
    (exists m,
        nth_error (combined ar tr en) (itemsBefore ar K + N) = Some m /\
        ayah_number m = api_number a /\
        (forall x, api_audio a = Some x -> audio m = x) /\
        (api_audio a = None -> audio m = "") /\
        text m = api_text a /\
        surah m = mkSurah (api_surah_number s) (api_name s)
                          (api_englishName s) /\
        (forall s' a', nth_error tr K = Some s' ->
                       nth_error (api_ayahs s') N = Some a' ->
                       transliteration m = api_text a') /\
        (nth_error tr K = None \/
         (exists s', nth_error tr K = Some s' /\
                     nth_error (api_ayahs s') N = None) ->
         transliteration m = "") /\
        (forall s' a', nth_error en K = Some s' ->
                       nth_error (api_ayahs s') N = Some a' ->
                       translation m = api_text a') /\
        (nth_error en K = None \/
         (exists s', nth_error en K = Some s' /\
                     nth_error (api_ayahs s') N = None) ->
         translation m = "")) /\
    length (combined ar tr en) = length (concat (map api_ayahs ar)) /\
    (forall tr' en', textsOf tr = textsOf tr' -> textsOf en = textsOf en' ->
                     combined ar tr' en' = combined ar tr en).
Proof.
  intros ar tr en K N s a Hs Ha. split; [|split].
  - exists (mergeAyah tr en K s N a). split.
    + exact (nth_error_blocks tr en ar 0%nat K N s a Hs Ha).
    + simpl. split; [reflexivity|].
      split; [intros x E; now rewrite E|].
      split; [intros E; now rewrite E|].
      split; [reflexivity|]. split; [reflexivity|].
      unfold textAt. split; [|split; [|split]].
      * intros s' a' E1 E2. now rewrite E1, E2.
      * intros [E|(s' & E1 & E2)]; [now rewrite E | now rewrite E1, E2].
      * intros s' a' E1 E2. now rewrite E1, E2.
      * intros [E|(s' & E1 & E2)]; [now rewrite E | now rewrite E1, E2].
  - apply combined_length_from.
  - intros tr' en' Ht He. symmetry. now apply combined_texts_only.
Qed.

(* ------------------------------------------------------------------ *)
(** ** Focus synchroniser *)

Lemma scrollFrame_top (prm : bool) (container node : Elem) :
  top (scrollFrame prm container node) = Qmax (offset container node) 0.
Proof. reflexivity. Qed.

Lemma surahScrollEffect_frame (prm : bool) (dom : Dom) (st : State)
  (S : Z) (container node : Elem) :
  currentSurah st = Some S ->
  findIndex (fun s => strictEq (number s) (Some S)) (surahs st) <> -1 ->
  getActiveSurahContext dom
    (findIndex (fun s => strictEq (number s) (Some S)) (surahs st))
  = (Some container, Some node) ->
  surahScrollEffect prm dom st = Some (scrollFrame prm container node).
Proof.
  intros Hs Hi Hc. unfold surahScrollEffect. rewrite Hs.
  destruct (Z.eqb_spec
              (findIndex (fun s => strictEq (number s) (Some S)) (surahs st))
              (-1)); [contradiction|].
  now rewrite Hc.
Qed.

Lemma ayahScrollEffect_frame (prm : bool) (dom : Dom) (st : State)
  (i : Z) (container node : Elem) :
  currentAyah st = Some i ->
  ayahScrollRef dom = Some container ->
  refAt (ayahRefs dom) i = Some node ->
  ayahScrollEffect prm dom st = Some (scrollFrame prm container node).
Proof.
  intros Hi Hc Hn. unfold ayahScrollEffect. now rewrite Hi, Hc, Hn.
Qed.

(** C8. For a container of height [H] and a target of top offset [T] and
    height [E], the scroll both layout effects request goes to
    [T - H/2 + E/2] clamped below at 0: the target is never negative, it
    is the formula's value when that is not negative and 0 otherwise; for
    [H = 400], [T = 1000], [E = 50] it is 825.  The section effect
    requests it for the container and the button it resolves, the item
    effect for the item list and the card of the current item. *)
Theorem scroll_target_formula :
  forall (prm : bool) (container node : Elem),
    let sc := scrollFrame prm container node in
    let H := inject_Z (clientHeight container) in
    let T := inject_Z (offsetTop node) in
    let E := inject_Z (offsetHeight node) in
    (top sc == Qmax (T - H / 2 + E / 2) 0 /\
     0 <= top sc /\
     (0 <= T - H / 2 + E / 2 -> top sc == T - H / 2 + E / 2) /\
     (T - H / 2 + E / 2 <= 0 -> top sc == 0) /\
     (clientHeight container = 400%Z -> offsetTop node = 1000%Z ->
      offsetHeight node = 50%Z -> top sc == 825))%Q /\
    (forall dom st S,
        currentSurah st = Some S ->
        findIndex (fun s => strictEq (number s) (Some S)) (surahs st) <> -1 ->
        getActiveSurahContext dom
          (findIndex (fun s => strictEq (number s) (Some S)) (surahs st))
        = (Some container, Some node) ->
        surahScrollEffect prm dom st = Some sc) /\
    (forall dom st i,
        currentAyah st = Some i ->
        ayahScrollRef dom = Some container ->
        refAt (ayahRefs dom) i = Some node ->
        ayahScrollEffect prm dom st = Some sc).
Proof.
  intros prm c n. cbv zeta.
  rewrite scrollFrame_top. unfold offset.
  split; [split; [|split; [|split; [|split]]] | split].
  - reflexivity.
  - apply Q.le_max_r.
  - intros Hp. now apply Q.max_l.
  - intros Hn. now apply Q.max_r.
  - intros -> -> ->. vm_compute. reflexivity.
  - intros dom st S. apply surahScrollEffect_frame.
  - intros dom st i. apply ayahScrollEffect_frame.
Qed.

(* ------------------------------------------------------------------ *)
(** ** Rendering and the mounted audio element *)

Lemma render_position (st : State) : position (render st) = position st.
Proof. reflexivity. Qed.

Lemma render_filteredAyahs (st : State) :
  filteredAyahs (render st) = filteredAyahs st.
Proof. reflexivity. Qed.

Lemma render_idempotent (st : State) : rendered (render st).
Proof.
  unfold rendered, render; simpl.
  destruct (truthy (currentSurah st)); [|reflexivity].
  now destruct (audioRef st).
Qed.

Lemma render_mounted (st : State) (src : string) :
  truthy (currentSurah st) = true -> audioRef st = Some src -> render st = st.
Proof.
  intros Ht Ha. destruct st as [ay su cs ca ar]; simpl in *.
  unfold render; simpl. now rewrite Ht, Ha.
Qed.

Lemma filteredAyahs_truthy (st : State) :
  0 < len (filteredAyahs st) -> truthy (currentSurah st) = true.
Proof.
  unfold filteredAyahs. destruct (currentSurah st) as [n|]; [|cbn; lia].
  destruct (truthy (Some n)); [reflexivity | cbn; lia].
Qed.

Lemma rendered_mounted (st : State) :
  rendered st -> truthy (currentSurah st) = true ->
  exists src, audioRef st = Some src.
Proof.
  unfold rendered, render. intros E Ht. rewrite Ht in E.
  destruct st as [ay su cs ca [src|]]; simpl in *; [eauto | discriminate].
Qed.

Lemma rendered_idle (st : State) :
  rendered st -> truthy (currentSurah st) = false -> audioRef st = None.
Proof.
  unfold rendered, render. intros E Ht. rewrite Ht in E.
  destruct st as [ay su cs ca ar]; simpl in *. congruence.
Qed.

Lemma filteredAyahs_of_selected (n : Z) (st : State) :
  currentSurah st = Some n -> n <> 0 ->
  filteredAyahs st = ayahsOfSurah n (ayahs st).
Proof.
  intros E Hn. unfold filteredAyahs. rewrite E. simpl.
  now destruct (Z.eqb_spec n 0).
Qed.

(** [find] of the click handler is the head of the filter of the render. *)
Lemma find_head_filter {A : Type} (p : A -> bool) (l : list A) :
  find p l = hd_error (filter p l).
Proof.
  induction l as [|x r IH]; simpl; [reflexivity|].
  now destruct (p x).
Qed.

(* ------------------------------------------------------------------ *)
(** ** The handlers, case by case *)

Lemma handlePlayAyah_valid (index : Z) (st : State) (a : Ayah) (src : string) :
  idx (filteredAyahs st) index = Some a -> audioRef st = Some src ->
  handlePlayAyah index st
  = (setCurrentAyah index (setSrc (audio a) st), [Play (audio a)]).
Proof. intros E Ha. unfold handlePlayAyah. now rewrite E, Ha. Qed.

Lemma handlePlayAyah_invalid (index : Z) (st : State) :
  idx (filteredAyahs st) index = None -> handlePlayAyah index st = (st, []).
Proof. intros E. unfold handlePlayAyah. now rewrite E. Qed.

Lemma handlePlayAyah_unmounted (index : Z) (st : State) :
  audioRef st = None -> handlePlayAyah index st = (st, []).
Proof.
  intros E. unfold handlePlayAyah. rewrite E.
  now destruct (idx (filteredAyahs st) index).
Qed.

Lemma handleEnded_advance (st : State) (i : Z) (a : Ayah) (src : string) :
  currentAyah st = Some i -> audioRef st = Some src ->
  idx (filteredAyahs st) (i + 1) = Some a ->
  handleEnded st
  = (setSrc (audio a) (setCurrentAyah (i + 1) st), [],
     Some (1000, ResumePlay)).
Proof.
  intros Hc Ha Hi. pose proof (idx_Some_range _ _ _ Hi) as R.
  unfold handleEnded. rewrite Hc, Ha.
  destruct (Z.eqb_spec (len (filteredAyahs st)) 0); [lia|].
  destruct (Z.ltb_spec (i + 1) (len (filteredAyahs st))); [|lia].
  now rewrite Hi.
Qed.

Lemma handleEnded_last (st : State) (i : Z) (src : string) :
  currentAyah st = Some i -> audioRef st = Some src ->
  0 < len (filteredAyahs st) -> len (filteredAyahs st) <= i + 1 ->
  handleEnded st
  = (st, [],
     match idx (surahs st)
             (findIndex (fun s => strictEq (number s) (currentSurah st))
                        (surahs st) + 1) with
     | Some nextSurah => Some (2000, ResumeNextSurah nextSurah (ayahs st))
     | None => None
     end).
Proof.
  intros Hc Ha Hl Hi. unfold handleEnded. rewrite Hc, Ha.
  destruct (Z.eqb_spec (len (filteredAyahs st)) 0); [lia|].
  destruct (Z.ltb_spec (i + 1) (len (filteredAyahs st))); [lia|].
  now destruct (idx (surahs st) _).
Qed.

Lemma handleEnded_idle (st : State) :
  currentAyah st = None \/ audioRef st = None \/ len (filteredAyahs st) = 0 ->
  handleEnded st = (st, [], None).
Proof.
  unfold handleEnded. intros [H|[H|H]]; rewrite H.
  - reflexivity.
  - now destruct (currentAyah st).
  - now destruct (currentAyah st), (audioRef st).
Qed.

Lemma onClickSurah_position (s : Surah) (st : State) :
  position (fst (onClickSurah s st)) = (Some (number s), Some 0).
Proof.
  unfold onClickSurah.
  destruct (audioRef st); [|reflexivity].
  now destruct (find (fun a => number (surah a) =? number s) (ayahs st)).
Qed.

Lemma onClickSurah_mounted (s : Surah) (st : State) (a : Ayah) (src : string) :
  audioRef st = Some src ->
  hd_error (ayahsOfSurah (number s) (ayahs st)) = Some a ->
  onClickSurah s st
  = (setSrc (audio a) (setCurrentAyah 0 (setCurrentSurah (number s) st)),
     [Play (audio a)]).
Proof.
  intros Ha Hf. unfold onClickSurah. rewrite Ha.
  unfold ayahsOfSurah in Hf. rewrite <- find_head_filter in Hf.
  now rewrite Hf.
Qed.

Lemma onClickSurah_unmounted (s : Surah) (st : State) :
  audioRef st = None ->
  onClickSurah s st
  = (setCurrentAyah 0 (setCurrentSurah (number s) st), []).
Proof. intros Ha. unfold onClickSurah. now rewrite Ha. Qed.

Lemma onClickSurah_empty (s : Surah) (st : State) :
  ayahsOfSurah (number s) (ayahs st) = [] ->
  onClickSurah s st
  = (setCurrentAyah 0 (setCurrentSurah (number s) st), []).
Proof.
  intros Hf. unfold onClickSurah.
  rewrite find_head_filter. fold (ayahsOfSurah (number s) (ayahs st)).
  rewrite Hf. simpl. now destruct (audioRef st).
Qed.

Lemma resume_play_state (st : State) : fst (resume ResumePlay st) = st.
Proof. simpl. now destruct (audioRef st). Qed.

Lemma resume_next_position (ns : Surah) (ays : list Ayah) (st : State) :
  position (fst (resume (ResumeNextSurah ns ays) st))
  = (Some (number ns), Some 0).
Proof.
  simpl. now destruct (ayahsOfSurah _ ays), (audioRef st).
Qed.

(* ------------------------------------------------------------------ *)
(** ** The next section: list successor against smallest greater
       identifier *)

Lemma findIndex_lower {A : Type} (p : A -> bool) (l : list A) :
  -1 <= findIndex p l.
Proof.
  induction l as [|x r IH]; simpl; [lia|].
  destruct (p x); [lia|].
  destruct (Z.ltb_spec (findIndex p r) 0); lia.
Qed.

Lemma findIndex_found {A : Type} (p : A -> bool) (l : list A) (x : A) :
  In x l -> p x = true -> 0 <= findIndex p l.
Proof.
  induction l as [|y r IH]; simpl; [tauto|].
  intros [->|Hin] Hp.
  - rewrite Hp. lia.
  - destruct (p y); [lia|]. specialize (IH Hin Hp).
    destruct (Z.ltb_spec (findIndex p r) 0); lia.
Qed.

Lemma idx_cons {A : Type} (x : A) (r : list A) (k : Z) :
  0 <= k -> idx (x :: r) (k + 1) = idx r k.
Proof.
  intros Hk. unfold idx.
  destruct (Z.ltb_spec (k + 1) 0); [lia|].
  destruct (Z.ltb_spec k 0); [lia|].
  replace (Z.to_nat (k + 1)) with (S (Z.to_nat k)) by lia. reflexivity.
Qed.

Lemma smallestGreater_head (S : Z) (l : list Surah) :
  ascending l -> (forall x, In x l -> S < number x) ->
  smallestGreater S l = hd_error l.
Proof.
  unfold ascending. induction l as [|s r IH]; intros Hs Hall; [reflexivity|].
  simpl in Hs. inversion Hs as [|? ? Hr Hlt]; subst.
  simpl. destruct (Z.ltb_spec S (number s)) as [_|Hle].
  - rewrite (IH Hr) by (intros x Hx; apply Hall; now right).
    destruct r as [|m r']; [reflexivity|]. simpl.
    simpl in Hlt. inversion Hlt as [|? ? Hm _]; subst.
    destruct (Z.ltb_spec (number m) (number s)); [lia | reflexivity].
  - specialize (Hall s (or_introl eq_refl)). lia.
Qed.

(** On an ascending list that holds [S], the entry behind the one found by
    [findIndex] is the section of smallest identifier above [S]. *)
Lemma successor_smallestGreater (S : Z) (l : list Surah) :
  ascending l -> In S (map number l) ->
  idx l (findIndex (fun s => strictEq (number s) (Some S)) l + 1)
  = smallestGreater S l.
Proof.
  unfold ascending. set (p := fun s => strictEq (number s) (Some S)).
  induction l as [|s r IH]; intros Hs Hin; [contradiction|].
  simpl in Hs. inversion Hs as [|? ? Hr Hlt]; subst.
  rewrite Forall_forall in Hlt.
  simpl findIndex. simpl smallestGreater.
  assert (Ep : p s = (number s =? S)) by reflexivity. rewrite Ep.
  destruct (Z.eqb_spec (number s) S) as [E|NE].
  - rewrite <- E, Z.ltb_irrefl.
    rewrite smallestGreater_head; [now destruct r | exact Hr |].
    intros x Hx. apply Hlt. now apply in_map.
  - destruct Hin as [E|Hin]; [contradiction|].
    assert (Hlt' : number s < S) by now apply Hlt.
    destruct (Z.ltb_spec S (number s)); [lia|].
    pose proof Hin as Hin'.
    apply in_map_iff in Hin'. destruct Hin' as (x & Ex & Hx).
    assert (F : 0 <= findIndex p r).
    { apply (findIndex_found p r x Hx). unfold p. simpl.
      rewrite Ex. apply Z.eqb_refl. }
    destruct (Z.ltb_spec (findIndex p r) 0); [lia|].
    rewrite idx_cons by lia.
    now apply IH.
Qed.

(** What [smallestGreater] returns is a section of the list above [S] and
    no section of the list lies strictly between; it returns nothing only
    when no section lies above [S]. *)
Lemma smallestGreater_spec (S : Z) (l : list Surah) :
  match smallestGreater S l with
  | Some m =>
      In m l /\ S < number m /\
      forall x, In x l -> S < number x -> number m <= number x
  | None => forall x, In x l -> number x <= S
  end.
Proof.
  induction l as [|s r IH]; simpl; [tauto|].
  destruct (Z.ltb_spec S (number s)) as [Hs|Hs].
  - destruct (smallestGreater S r) as [m|].
    + destruct IH as (Hm & Hgt & Hmin).
      destruct (Z.ltb_spec (number m) (number s)).
      * split; [now right|]. split; [exact Hgt|].
        intros x [<-|Hx] Hx'; [lia | now apply Hmin].
      * split; [now left|]. split; [exact Hs|].
        intros x [<-|Hx] Hx'; [lia|]. specialize (Hmin x Hx Hx'). lia.
    + split; [now left|]. split; [exact Hs|].
      intros x [<-|Hx] Hx'; [lia|]. specialize (IH x Hx). lia.
  - destruct (smallestGreater S r) as [m|].
    + destruct IH as (Hm & Hgt & Hmin).
      split; [now right|]. split; [exact Hgt|].
      intros x [<-|Hx] Hx'; [lia | now apply Hmin].
    + intros x [<-|Hx]; [lia | now apply IH].
Qed.

(** Every merged item carries a section of the section list. *)
Lemma mergeAyah_surah_listed (tr en : Edition) (si : nat) (s : ApiSurah)
  (l : list ApiAyah) (a : Ayah) :
  forall j, In a (mapi_from (mergeAyah tr en si s) j l) ->
            surah a = mkSurah (api_surah_number s) (api_name s)
                              (api_englishName s).
Proof.
  induction l as [|x xs IH]; intros j; simpl; [tauto|].
  intros [<-|H]; [reflexivity | now apply (IH (S j))].
Qed.

Lemma combined_surah_listed (ar tr en : Edition) (a : Ayah) :
  In a (combined ar tr en) -> In (surah a) (surahList ar).
Proof.
  unfold combined, flatMapi, mapi at 1, surahList.
  generalize 0%nat as i.
  induction ar as [|s r IH]; intros i; simpl; [tauto|].
  rewrite in_app_iff. intros [H|H].
  - left. symmetry. exact (mergeAyah_surah_listed tr en i s _ a 0%nat H).
  - right. now apply (IH (S i)).
Qed.

(* ------------------------------------------------------------------ *)
(** ** The event loop *)

Lemma dispatch_Ended_quiet (t : Z) (w : World) :
  timers w = [] ->
  dispatch t Ended w
  = let '(st', out, timer) := handleEnded (state w) in
    mkWorld (render st')
      (match timer with
       | Some (delay, p) => [(t + delay, p)]
       | None => []
       end)
      (trace w ++ stamp t out).
Proof.
  destruct w as [st ts tr]; simpl. intros ->. unfold dispatch; simpl.
  destruct (handleEnded st) as [[st' out] [[delay p]|]]; reflexivity.
Qed.

Lemma expire_early (t due : Z) (p : Pending) (st : State)
  (tr : list (Z * Cmd)) :
  t < due -> expire t [(due, p)] st tr = mkWorld st [(due, p)] tr.
Proof. intros H. simpl. now destruct (Z.leb_spec due t); [lia|]. Qed.

Lemma expire_due (t due : Z) (p : Pending) (st : State)
  (tr : list (Z * Cmd)) :
  due <= t ->
  expire t [(due, p)] st tr
  = mkWorld (render (fst (resume p st))) []
            (tr ++ stamp due (snd (resume p st))).
Proof.
  intros H. simpl. destruct (Z.leb_spec due t); [|lia].
  now destruct (resume p st).
Qed.

(* ------------------------------------------------------------------ *)
(** ** Auto-advance *)

(** C1. In a section of [N] items with the item index at [i], [i + 1 < N],
    and nothing else pending, the end of playback at time [t] moves the
    Playback Position to [(S, i + 1)] at once and sets one timer, due at
    [t + 1000]; nothing is issued before that time, and when the timer
    expires the position is still [(S, i + 1)] and, the locator of item
    [i + 1] being non-empty, a play command for it is issued at
    [t + 1000]. *)
Theorem ended_advances_within_section :
  forall (w : World) (t S i : Z),
    timers w = [] -> rendered (state w) ->
    currentSurah (state w) = Some S -> currentAyah (state w) = Some i ->
    0 <= i -> i + 1 < len (filteredAyahs (state w)) ->
    exists a,
      idx (filteredAyahs (state w)) (i + 1) = Some a /\
      let w1 := dispatch t Ended w in
      position (state w1) = (Some S, Some (i + 1)) /\
      trace w1 = trace w /\
      timers w1 = [(t + 1000, ResumePlay)] /\
      (forall t', t' < t + 1000 ->
                  expire t' (timers w1) (state w1) (trace w1) = w1) /\
      let w2 := expire (t + 1000) (timers w1) (state w1) (trace w1) in
      position (state w2) = (Some S, Some (i + 1)) /\
      timers w2 = [] /\
      (audio a <> "" -> trace w2 = trace w ++ [(t + 1000, Play (audio a))]).
Proof.
  intros w t S i Ht Hr Hs Hi Hi0 Hlt.
  assert (Htr : truthy (currentSurah (state w)) = true)
    by (apply filteredAyahs_truthy; lia).
  destruct (rendered_mounted _ Hr Htr) as [src Ha].
  destruct (idx_in_range (filteredAyahs (state w)) (i + 1)) as [a Hidx];
    [lia|].
  exists a. split; [exact Hidx|]. cbv zeta.
  rewrite (dispatch_Ended_quiet t w Ht).
  rewrite (handleEnded_advance _ i a src Hi Ha Hidx).
  set (st1 := setSrc (audio a) (setCurrentAyah (i + 1) (state w))).
  assert (R1 : render st1 = st1)
    by (apply (render_mounted st1 (audio a)); [exact Htr | reflexivity]).
  rewrite R1. cbn [state timers trace]. rewrite app_nil_r.
  assert (P1 : position st1 = (Some S, Some (i + 1)))
    by (unfold position, st1; simpl; now rewrite Hs).
  split; [exact P1|]. split; [reflexivity|]. split; [reflexivity|].
  split; [intros t' Ht'; now apply expire_early|].
  rewrite expire_due by lia.
  rewrite resume_play_state, R1. cbn [state timers trace].
  split; [exact P1|]. split; [reflexivity|].
  intros _. reflexivity.
Qed.

(** C2. At the last item of section [S], with nothing else pending, the
    section list ascending and holding [S]: when a section of smallest
    identifier above [S] exists, the end of playback at time [t] changes
    nothing at once and sets one timer, due at [t + 2000]; nothing happens
    before that time, and when the timer expires the Playback Position
    becomes [(nextSection, 0)] and a play command for the first item of
    that section is issued at [t + 2000] if the section has one.  When no
    such section exists, nothing changes, no timer is set and no command
    is issued. *)
Theorem ended_at_last_item :
  forall (w : World) (t S i : Z),
    timers w = [] -> rendered (state w) ->
    currentSurah (state w) = Some S -> currentAyah (state w) = Some i ->
    0 < len (filteredAyahs (state w)) ->
    i = len (filteredAyahs (state w)) - 1 ->
    ascending (surahs (state w)) -> In S (map number (surahs (state w))) ->
    let w1 := dispatch t Ended w in
    match smallestGreater S (surahs (state w)) with
    | Some nextSection =>
        state w1 = state w /\
        trace w1 = trace w /\
        timers w1
        = [(t + 2000, ResumeNextSurah nextSection (ayahs (state w)))] /\
        (forall t', t' < t + 2000 ->
                    expire t' (timers w1) (state w1) (trace w1) = w1) /\
        let w2 := expire (t + 2000) (timers w1) (state w1) (trace w1) in
        position (state w2) = (Some (number nextSection), Some 0) /\
        timers w2 = [] /\
        match hd_error (ayahsOfSurah (number nextSection) (ayahs (state w)))
        with
        | Some a => trace w2 = trace w ++ [(t + 2000, Play (audio a))]
        | None => trace w2 = trace w
        end
    | None => w1 = w /\ settle w1 = w
    end.
Proof.
  intros w t S i Ht Hr Hs Hi Hpos Hlast Hasc Hin.
  assert (Htr : truthy (currentSurah (state w)) = true)
    by now apply filteredAyahs_truthy.
  destruct (rendered_mounted _ Hr Htr) as [src Ha].
  cbv zeta. rewrite (dispatch_Ended_quiet t w Ht).
  rewrite (handleEnded_last _ i src Hi Ha Hpos) by lia.
  rewrite Hs, (successor_smallestGreater S _ Hasc Hin).
  destruct (smallestGreater S (surahs (state w))) as [ns|].
  - rewrite Hr. cbn [state timers trace]. rewrite app_nil_r.
    split; [reflexivity|]. split; [reflexivity|]. split; [reflexivity|].
    split; [intros t' Ht'; now apply expire_early|].
    rewrite expire_due by lia. cbn [state timers trace].
    rewrite render_position, resume_next_position.
    split; [reflexivity|]. split; [reflexivity|].
    simpl resume. rewrite Ha.
    destruct (ayahsOfSurah (number ns) (ayahs (state w))) as [|a r];
      simpl; [now rewrite app_nil_r | reflexivity].
  - rewrite Hr. destruct w as [st ts tr]; simpl in *. subst ts.
    rewrite app_nil_r. split; reflexivity.
Qed.

(* ------------------------------------------------------------------ *)
(** ** Every world reached from a load is rendered *)

Lemma expire_rendered (t : Z) (ts : list (Z * Pending)) :
  forall st tr, rendered st -> rendered (state (expire t ts st tr)).
Proof.
  induction ts as [|[due p] rest IH]; intros st tr H; simpl; [exact H|].
  destruct (due <=? t); [|exact H].
  destruct (resume p st) as [st' out]. apply IH, render_idempotent.
Qed.

Lemma dispatch_rendered (t : Z) (e : Event) (w : World) :
  rendered (state w) -> rendered (state (dispatch t e w)).
Proof.
  intros H. unfold dispatch.
  pose proof (expire_rendered t (timers w) (state w) (trace w) H) as H1.
  destruct e as [k|i|].
  - destruct (nth_error _ k) as [s|]; [|exact H1].
    destruct (onClickSurah s _). apply render_idempotent.
  - destruct (handlePlayAyah i _). apply render_idempotent.
  - destruct (handleEnded _) as [[st' out] timer]. apply render_idempotent.
Qed.

Lemma run_rendered (evs : list (Z * Event)) :
  forall w, rendered (state w) -> rendered (state (run evs w)).
Proof.
  induction evs as [|[t e] rest IH]; intros w H; simpl; [exact H|].
  apply IH, dispatch_rendered, H.
Qed.

Lemma boot_rendered (ar tr en : Edition) (evs : list (Z * Event)) :
  rendered (state (run evs (boot ar tr en))).
Proof. apply run_rendered. reflexivity. Qed.

(* ------------------------------------------------------------------ *)
(** ** A manual selection while a pause is pending *)

Lemma dispatch_manual_timers (t due : Z) (e : Event) (p : Pending)
  (w : World) :
  isManual e = true -> t < due -> timers w = [(due, p)] ->
  timers (dispatch t e w) = [(due, p)].
Proof.
  intros Hm Ht Hw. unfold dispatch. rewrite Hw, expire_early by exact Ht.
  cbn [state timers trace].
  destruct e as [k|i|]; [| |discriminate].
  - destruct (nth_error _ k) as [s|]; [|reflexivity].
    now destruct (onClickSurah s _).
  - now destruct (handlePlayAyah i _).
Qed.

Lemma settle_single (w : World) (due : Z) (p : Pending) :
  timers w = [(due, p)] ->
  state (settle w) = render (fst (resume p (state w))).
Proof.
  intros H. unfold settle. rewrite H. simpl.
  now destruct (resume p (state w)).
Qed.

(** C3, as the code has it.  A click on a surah button or an ayah card
    that arrives while the 1-second pause is pending keeps the Playback
    Position it sets: the pending code only calls [play()] and leaves the
    position alone.  While the 2-second pause is pending nothing protects
    the click: when the timer expires, the Playback Position becomes
    [(nextSection, 0)] whatever the click had set. *)
Theorem pending_pause_after_manual_selection :
  forall (w : World) (t due : Z) (e : Event),
    isManual e = true -> t < due ->
    (timers w = [(due, ResumePlay)] ->
     position (state (settle (dispatch t e w)))
     = position (state (dispatch t e w))) /\
    (forall nextSection ays,
        timers w = [(due, ResumeNextSurah nextSection ays)] ->
        position (state (settle (dispatch t e w)))
        = (Some (number nextSection), Some 0)).
Proof.
  intros w t due e Hm Ht. split.
  - intros Hw.
    rewrite (settle_single _ due ResumePlay)
      by now apply dispatch_manual_timers.
    now rewrite render_position, resume_play_state.
  - intros ns ays Hw.
    rewrite (settle_single _ due (ResumeNextSurah ns ays))
      by now apply dispatch_manual_timers.
    now rewrite render_position, resume_next_position.
Qed.

(** C3 fails as stated: the last item of section 1 ends at 5000 ms, the
    user selects section 4 at 6000 ms, and at 7000 ms the pending code
    replaces the position [(4, 0)] by [(2, 0)]. *)
Lemma manual_selection_overwritten :
  let w := run [(5000, Ended); (6000, ClickSurah 3)]
               (dispatch 200 (ClickAyah 2) sample_playing) in
  isManual (ClickSurah 3) = true /\
  map fst (timers w) = [7000] /\
  position (state w) = (Some 4, Some 0) /\
  position (state (settle w)) = (Some 2, Some 0) /\
  position (state (settle w)) <> position (state w).
Proof.
  cbv zeta. repeat split; try (vm_compute; reflexivity).
  vm_compute. discriminate.
Qed.

(* ------------------------------------------------------------------ *)
(** ** Selecting an item *)

(** C10. Whatever the index, [handlePlayAyah] leaves the active section,
    the section list and the merged item list as they were, so that only
    the item index and the source of the audio element can differ
    afterwards; for an index outside the filtered item list it returns the
    state unchanged and issues no command. *)
Theorem handlePlayAyah_frame :
  forall (index : Z) (st : State),
    currentSurah (fst (handlePlayAyah index st)) = currentSurah st /\
    surahs (fst (handlePlayAyah index st)) = surahs st /\
    ayahs (fst (handlePlayAyah index st)) = ayahs st /\
    (~ 0 <= index < len (filteredAyahs st) ->
     handlePlayAyah index st = (st, [])).
Proof.
  intros index st. unfold handlePlayAyah.
  destruct (idx (filteredAyahs st) index) as [a|] eqn:E.
  - apply idx_Some_range in E.
    destruct (audioRef st); simpl; repeat split; intros H; contradiction.
  - repeat split.
Qed.

(** C7, as the code has it.  An empty locator is not looked at: with the
    audio element mounted, selecting such an item sets the item index and
    the element's source to the empty string and issues a play command at
    once; reaching it by the advance within a section does the same with
    the play command after the 1-second pause, and reaching it as the
    first item of the next section issues the play command when the
    2-second pause is over. *)
Theorem empty_locator_is_played :
  forall (st : State) (i : Z) (a : Ayah) (src : string),
    audioRef st = Some src -> audio a = "" ->
    (idx (filteredAyahs st) i = Some a ->
     handlePlayAyah i st = (setCurrentAyah i (setSrc "" st), [Play ""])) /\
    (currentAyah st = Some i ->
     idx (filteredAyahs st) (i + 1) = Some a ->
     handleEnded st
     = (setSrc "" (setCurrentAyah (i + 1) st), [], Some (1000, ResumePlay)) /\
     resume ResumePlay (setSrc "" (setCurrentAyah (i + 1) st))
     = (setSrc "" (setCurrentAyah (i + 1) st), [Play ""])) /\
    (forall nextSurah ays,
        hd_error (ayahsOfSurah (number nextSurah) ays) = Some a ->
        resume (ResumeNextSurah nextSurah ays) st
        = (setSrc "" (setCurrentAyah 0
                        (setCurrentSurah (number nextSurah) st)),
           [Play ""])).
Proof.
  intros st i a src Ha Hempty. split; [|split].
  - intros Hi. rewrite (handlePlayAyah_valid i st a src Hi Ha).
    now rewrite Hempty.
  - intros Hc Hi. rewrite (handleEnded_advance st i a src Hc Ha Hi).
    rewrite Hempty. split; reflexivity.
  - intros ns ays Hh. simpl. rewrite Ha.
    destruct (ayahsOfSurah (number ns) ays) as [|b r]; [discriminate|].
    simpl in Hh. injection Hh as ->. now rewrite Hempty.
Qed.

(** C7 fails as stated: the second item of the first sample section has
    the empty locator, and the click on its card at 200 ms issues a play
    command. *)
Lemma empty_locator_play_issued :
  option_map audio (idx (filteredAyahs (state sample_playing)) 1) = Some "" /\
  trace (dispatch 200 (ClickAyah 1) sample_playing)
  = trace sample_playing ++ [(200, Play "")] /\
  position (state (dispatch 200 (ClickAyah 1) sample_playing))
  = (Some 1, Some 1).
Proof. repeat split; vm_compute; reflexivity. Qed.

(* ------------------------------------------------------------------ *)
(** ** Selecting a section *)

(** C5 on the state right after the load.  Nothing is selected yet, so no
    audio element is mounted; the first click on the button of section 1,
    whose first item has a non-empty locator, sets the Playback Position to
    [(1, 0)] and issues no play command.  The same click on a world where
    a section is already selected issues it. *)
Theorem first_selection_is_silent :
  let w0 := boot sample_ar sample_tr sample_en in
  let w1 := dispatch 0 (ClickSurah 0) w0 in
  audioRef (state w0) = None /\
  option_map audio (hd_error (ayahsOfSurah 1 (ayahs (state w0))))
  = Some "https://cdn.example/1.mp3" /\
  position (state w1) = (Some 1, Some 0) /\
  trace w1 = [] /\
  trace (dispatch 300 (ClickSurah 0) sample_playing)
  = trace sample_playing ++ [(300, Play "https://cdn.example/1.mp3")].
Proof. cbv zeta. repeat split; vm_compute; reflexivity. Qed.

(** C6, as the code has it.  Selecting a section whose filtered item list
    is empty sets the Playback Position to [(S, 0)], not to [(S, none)],
    and issues no play command. *)
Theorem select_empty_section :
  forall (s : Surah) (st : State),
    number s <> 0 ->
    filteredAyahs (fst (onClickSurah s st)) = [] ->
    position (fst (onClickSurah s st)) = (Some (number s), Some 0) /\
    snd (onClickSurah s st) = [].
Proof.
  intros s st Hn He. split; [apply onClickSurah_position|].
  rewrite (filteredAyahs_of_selected (number s)) in He; [| |exact Hn].
  - assert (Ha : ayahs (fst (onClickSurah s st)) = ayahs st).
    { unfold onClickSurah. destruct (audioRef st); [|reflexivity].
      now destruct (find (fun a => number (surah a) =? number s) (ayahs st)). }
    rewrite Ha in He. now rewrite (onClickSurah_empty s st He).
  - pose proof (onClickSurah_position s st) as P. unfold position in P.
    congruence.
Qed.

(** C6 fails as stated: the third sample section has no items, and the
    click on its button leaves the item index at 0. *)
Lemma empty_section_index_zero :
  let w := dispatch 300 (ClickSurah 2) sample_playing in
  filteredAyahs (state w) = [] /\
  position (state w) = (Some 3, Some 0) /\
  position (state w) <> (Some 3, None).
Proof.
  cbv zeta. repeat split; try (vm_compute; reflexivity).
  vm_compute. discriminate.
Qed.

(* ------------------------------------------------------------------ *)
(** ** Validity of the item index *)

(** C4, as the code has it.  [handlePlayAyah] either changes nothing or
    sets a valid index; [handleEnded] keeps a valid index valid, and so
    does the code behind the 1-second pause, which leaves the state
    alone.  A click on a surah button and the code behind the 2-second
    pause set the index to 0 without looking at the section: the index is
    valid exactly when that section has an item. *)
Theorem item_index_validity :
  forall (st : State),
    (forall i, handlePlayAyah i st = (st, []) \/
               (currentAyah (fst (handlePlayAyah i st)) = Some i /\
                validIndex (fst (handlePlayAyah i st)))) /\
    (validIndex st -> validIndex (fst (fst (handleEnded st)))) /\
    fst (resume ResumePlay st) = st /\
    (forall s,
        currentAyah (fst (onClickSurah s st)) = Some 0 /\
        (validIndex (fst (onClickSurah s st)) <->
         filteredAyahs (fst (onClickSurah s st)) <> [])) /\
    (forall nextSurah ays,
        currentAyah (fst (resume (ResumeNextSurah nextSurah ays) st))
        = Some 0 /\
        (validIndex (fst (resume (ResumeNextSurah nextSurah ays) st)) <->
         filteredAyahs (fst (resume (ResumeNextSurah nextSurah ays) st))
         <> [])).
Proof.
  intros st.
  assert (Z0 : forall st', currentAyah st' = Some 0 ->
                           (validIndex st' <-> filteredAyahs st' <> [])).
  { intros st' E. unfold validIndex, len. rewrite E.
    destruct (filteredAyahs st'); simpl; split; intros H;
      try lia; try congruence; try discriminate. }
  split; [|split; [|split; [|split]]].
  - intros i. unfold handlePlayAyah.
    destruct (idx (filteredAyahs st) i) as [a|] eqn:E; [|now left].
    destruct (audioRef st); [|now left].
    right. split; [reflexivity|].
    apply idx_Some_range in E. unfold validIndex. simpl. exact E.
  - intros Hv. unfold handleEnded.
    destruct (currentAyah st) as [cur|] eqn:Ec; [|exact Hv].
    destruct (audioRef st); [|exact Hv].
    destruct (len (filteredAyahs st) =? 0); [exact Hv|].
    destruct (Z.ltb_spec (cur + 1) (len (filteredAyahs st))).
    + unfold validIndex in Hv. rewrite Ec in Hv.
      destruct (idx (filteredAyahs st) (cur + 1));
        change (0 <= cur + 1 < len (filteredAyahs st)); lia.
    + destruct (idx (surahs st) _); exact Hv.
  - apply resume_play_state.
  - intros s.
    assert (E : currentAyah (fst (onClickSurah s st)) = Some 0).
    { pose proof (onClickSurah_position s st) as P. unfold position in P.
      congruence. }
    split; [exact E | now apply Z0].
  - intros ns ays.
    assert (E : currentAyah (fst (resume (ResumeNextSurah ns ays) st))
                = Some 0).
    { pose proof (resume_next_position ns ays st) as P. unfold position in P.
      congruence. }
    split; [exact E | now apply Z0].
Qed.

(** C4 fails as stated: after the click on the button of the third sample
    section, which has no items, the item index is 0 and the filtered
    item list is empty. *)
Lemma index_out_of_range_emitted :
  let w := dispatch 0 (ClickSurah 2) (boot sample_ar sample_tr sample_en) in
  currentAyah (state w) = Some 0 /\
  len (filteredAyahs (state w)) = 0 /\
  ~ validIndex (state w).
Proof.
  cbv zeta. split; [|split]; try (vm_compute; reflexivity).
  unfold validIndex. vm_compute. intros [_ H]. discriminate.
Qed.

(* ================================================================== *)
(** * Worked instances on the sample content *)

(** The first item of the first section keeps its locator and gets the
    transliteration found at its position; the second, which has no
    locator, gets the empty one, and empty renderings, the other editions
    having no item there. *)
Lemma combined_positional_witness :
  (exists m,
      nth_error (combined sample_ar sample_tr sample_en) 0 = Some m /\
      ayah_number m = 1 /\ audio m = "https://cdn.example/1.mp3" /\
      text m = "alif" /\
      surah m = mkSurah 1 "al-fatiha" "The Opening" /\
      transliteration m = "alif (tr)" /\ translation m = "") /\
  (exists m,
      nth_error (combined sample_ar sample_tr sample_en) 1 = Some m /\
      ayah_number m = 2 /\ audio m = "" /\ text m = "ba" /\
      transliteration m = "" /\ translation m = "") /\
  length (combined sample_ar sample_tr sample_en) = 5%nat.
Proof.
  split; [|split].
  - destruct (combined_positional sample_ar sample_tr sample_en 0 0
                (mkApiSurah 1 "al-fatiha" "The Opening"
                   [ mkApiAyah 1 (Some "https://cdn.example/1.mp3") "alif";
                     mkApiAyah 2 None "ba";
                     mkApiAyah 3 (Some "https://cdn.example/3.mp3") "ta" ])
                (mkApiAyah 1 (Some "https://cdn.example/1.mp3") "alif")
                eq_refl eq_refl)
      as [(m & Hm & Hn & Hsome & _ & Ht & Hs & Htr & _ & _ & Hen) _].
    exists m. split; [exact Hm|]. split; [exact Hn|].
    split; [apply Hsome; reflexivity|]. split; [exact Ht|].
    split; [exact Hs|]. split.
    + apply (Htr (mkApiSurah 1 "al-fatiha" "The Opening"
                    [ mkApiAyah 1 None "alif (tr)" ])
                 (mkApiAyah 1 None "alif (tr)")); reflexivity.
    + apply Hen. left. reflexivity.
  - destruct (combined_positional sample_ar sample_tr sample_en 0 1
                (mkApiSurah 1 "al-fatiha" "The Opening"
                   [ mkApiAyah 1 (Some "https://cdn.example/1.mp3") "alif";
                     mkApiAyah 2 None "ba";
                     mkApiAyah 3 (Some "https://cdn.example/3.mp3") "ta" ])
                (mkApiAyah 2 None "ba") eq_refl eq_refl)
      as [(m & Hm & Hn & _ & Hnone & Ht & _ & _ & Htr & _ & Hen) _].
    exists m. split; [exact Hm|]. split; [exact Hn|].
    split; [apply Hnone; reflexivity|]. split; [exact Ht|]. split.
    + apply Htr. right.
      exists (mkApiSurah 1 "al-fatiha" "The Opening"
                [ mkApiAyah 1 None "alif (tr)" ]).
      split; reflexivity.
    + apply Hen. left. reflexivity.
  - destruct (combined_positional sample_ar sample_tr sample_en 0 0
                (mkApiSurah 1 "al-fatiha" "The Opening"
                   [ mkApiAyah 1 (Some "https://cdn.example/1.mp3") "alif";
                     mkApiAyah 2 None "ba";
                     mkApiAyah 3 (Some "https://cdn.example/3.mp3") "ta" ])
                (mkApiAyah 1 (Some "https://cdn.example/1.mp3") "alif")
                eq_refl eq_refl) as (_ & Hlen & _).
    rewrite Hlen. reflexivity.
Defined.

(** A container 400 high and a card at 1000, 50 high: the item list
    scrolls to 825, smoothly. *)
Lemma scroll_target_formula_witness :
  let container := mkElem true 0 0 400 in
  let node := mkElem true 1000 50 0 in
  let dom := mkDom None None [] [] (Some container) [Some node] in
  (top (scrollFrame false container node) == 825)%Q /\
  ayahScrollEffect false dom (state sample_playing)
  = Some (scrollFrame false container node).
Proof.
  cbv zeta.
  destruct (scroll_target_formula false (mkElem true 0 0 400)
              (mkElem true 1000 50 0)) as [(_ & _ & _ & _ & H825) [_ Hay]].
  split.
  - apply H825; reflexivity.
  - apply (Hay (mkDom None None [] [] (Some (mkElem true 0 0 400))
                  [Some (mkElem true 1000 50 0)])
               (state sample_playing) 0); reflexivity.
Defined.

(** The second item ends at 5000 ms: the position is [(1, 2)] at once,
    and the third item, which has a locator, is played at 6000 ms. *)
Lemma ended_advances_within_section_witness :
  let w := dispatch 200 (ClickAyah 1) sample_playing in
  let w1 := dispatch 5000 Ended w in
  let w2 := expire 6000 (timers w1) (state w1) (trace w1) in
  position (state w1) = (Some 1, Some 2) /\
  timers w1 = [(6000, ResumePlay)] /\
  trace w2 = trace w ++ [(6000, Play "https://cdn.example/3.mp3")].
Proof.
  cbv zeta.
  destruct (ended_advances_within_section
              (dispatch 200 (ClickAyah 1) sample_playing) 5000 1 1)
    as (a & Ha & Hp & _ & Ht & _ & _ & _ & Hplay).
  - reflexivity.
  - vm_compute. reflexivity.
  - reflexivity.
  - reflexivity.
  - lia.
  - vm_compute. reflexivity.
  - split; [exact Hp|]. split; [exact Ht|].
    assert (Ea : a = mkAyah 3 "https://cdn.example/3.mp3" "ta" "" ""
                       (mkSurah 1 "al-fatiha" "The Opening")).
    { vm_compute in Ha. now injection Ha as <-. }
    subst a. apply Hplay. simpl. discriminate.
Defined.

(** The last item of section 1 ends at 5000 ms: section 2 is next, and
    its first item is played at 7000 ms. *)
Lemma ended_at_last_item_witness :
  let w := dispatch 200 (ClickAyah 2) sample_playing in
  let w1 := dispatch 5000 Ended w in
  let w2 := expire 7000 (timers w1) (state w1) (trace w1) in
  state w1 = state w /\
  position (state w2) = (Some 2, Some 0) /\
  trace w2 = trace w ++ [(7000, Play "https://cdn.example/4.mp3")].
Proof.
  cbv zeta.
  pose proof (ended_at_last_item
                (dispatch 200 (ClickAyah 2) sample_playing) 5000 1 2) as H.
  cbv zeta in H.
  change (smallestGreater 1
            (surahs (state (dispatch 200 (ClickAyah 2) sample_playing))))
    with (Some (mkSurah 2 "al-baqara" "The Cow")) in H.
  change (hd_error
            (ayahsOfSurah (number (mkSurah 2 "al-baqara" "The Cow"))
               (ayahs (state (dispatch 200 (ClickAyah 2) sample_playing)))))
    with (Some (mkAyah 4 "https://cdn.example/4.mp3" "tha" "" ""
                  (mkSurah 2 "al-baqara" "The Cow"))) in H.
  destruct H as (Hs & _ & _ & _ & Hp & _ & Htr).
  - reflexivity.
  - vm_compute. reflexivity.
  - reflexivity.
  - reflexivity.
  - vm_compute. reflexivity.
  - vm_compute. reflexivity.
  - unfold ascending. vm_compute. repeat constructor.
  - vm_compute. left. reflexivity.
  - split; [exact Hs|]. split; [exact Hp | exact Htr].
Defined.

(** A click on the fourth surah button at 5500 ms survives the pending
    1-second pause and, at 6000 ms, does not survive the pending 2-second
    pause. *)
Lemma pending_pause_after_manual_selection_witness :
  position
    (state (settle (dispatch 5500 (ClickSurah 3)
                      (dispatch 5000 Ended sample_playing))))
  = (Some 4, Some 0) /\
  position
    (state (settle (dispatch 6000 (ClickSurah 3)
                      (dispatch 5000 Ended
                         (dispatch 200 (ClickAyah 2) sample_playing)))))
  = (Some 2, Some 0).
Proof.
  split.
  - destruct (pending_pause_after_manual_selection
                (dispatch 5000 Ended sample_playing) 5500 6000 (ClickSurah 3)
                eq_refl) as [H _]; [lia|].
    rewrite H by reflexivity. reflexivity.
  - destruct (pending_pause_after_manual_selection
                (dispatch 5000 Ended
                   (dispatch 200 (ClickAyah 2) sample_playing))
                6000 7000 (ClickSurah 3) eq_refl) as [_ H]; [lia|].
    apply (H (mkSurah 2 "al-baqara" "The Cow")
             (ayahs (state sample_playing))).
    reflexivity.
Defined.

(** On the playing sample, the end of the first item leaves a valid
    index, and the click on an ayah card sets a valid one. *)
Lemma item_index_validity_witness :
  validIndex (fst (fst (handleEnded (state sample_playing)))) /\
  validIndex (fst (handlePlayAyah 1 (state sample_playing))).
Proof.
  destruct (item_index_validity (state sample_playing))
    as (Hplay & Hended & _).
  split.
  - apply Hended. unfold validIndex. vm_compute.
    split; [discriminate | reflexivity].
  - destruct (Hplay 1) as [H|[_ H]]; [|exact H].
    vm_compute in H. discriminate.
Defined.

(** The third sample section is empty: selecting it gives [(3, 0)] and
    no command. *)
Lemma select_empty_section_witness :
  let s := mkSurah 3 "al-imran" "The Family of Imran" in
  position (fst (onClickSurah s (state sample_playing))) = (Some 3, Some 0) /\
  snd (onClickSurah s (state sample_playing)) = [].
Proof.
  cbv zeta.
  apply (select_empty_section (mkSurah 3 "al-imran" "The Family of Imran")
           (state sample_playing)).
  - simpl. lia.
  - vm_compute. reflexivity.
Defined.

(** The second item of the first sample section has no locator: the click
    on its card, and the advance from the first item, both end in
    [play()] on the empty source. *)
Lemma empty_locator_is_played_witness :
  snd (handlePlayAyah 1 (state sample_playing)) = [Play ""] /\
  snd (fst (handleEnded (state sample_playing))) = [] /\
  snd (handleEnded (state sample_playing)) = Some (1000, ResumePlay).
Proof.
  destruct (empty_locator_is_played (state sample_playing) 1
              (mkAyah 2 "" "ba" "" "" (mkSurah 1 "al-fatiha" "The Opening"))
              "https://cdn.example/1.mp3" eq_refl eq_refl) as (H1 & _ & _).
  destruct (empty_locator_is_played (state sample_playing) 0
              (mkAyah 2 "" "ba" "" "" (mkSurah 1 "al-fatiha" "The Opening"))
              "https://cdn.example/1.mp3" eq_refl eq_refl) as (_ & H2 & _).
  rewrite (H1 eq_refl).
  destruct (H2 eq_refl eq_refl) as [H2' _]. rewrite H2'.
  repeat split.
Defined.

(** Index 7 is outside the three items of the first sample section. *)
Lemma handlePlayAyah_frame_witness :
  handlePlayAyah 7 (state sample_playing) = (state sample_playing, []).
Proof.
  destruct (handlePlayAyah_frame 7 (state sample_playing))
    as (_ & _ & _ & H).
  apply H.
  change (len (filteredAyahs (state sample_playing))) with 3. lia.
Defined.

(* ================================================================== *)
(** * Further properties of the component *)

(* ------------------------------------------------------------------ *)
(** ** The filtered item list *)

(** X1. The filtered item list holds exactly the loaded items whose
    section identifier is the selected one, and nothing at all while no
    section, or the section 0, is selected. *)
Theorem filteredAyahs_members :
  forall (st : State) (a : Ayah),
    In a (filteredAyahs st) <->
    In a (ayahs st) /\
    exists n, currentSurah st = Some n /\ n <> 0 /\ number (surah a) = n.
Proof.
  intros st a. unfold filteredAyahs.
  destruct (currentSurah st) as [n|].
  - simpl. destruct (Z.eqb_spec n 0) as [E|NE]; simpl.
    + split; [tauto|]. intros (_ & m & [= <-] & Hm & _). contradiction.
    + unfold ayahsOfSurah. rewrite filter_In. split.
      * intros [Hin Hn]. apply Z.eqb_eq in Hn. split; [exact Hin|].
        now exists n.
      * intros (Hin & m & [= <-] & _ & Hn). split; [exact Hin|].
        now apply Z.eqb_eq.
  - simpl. split; [tauto|]. intros (_ & m & Hm & _). discriminate.
Qed.

Lemma filter_concat {A : Type} (p : A -> bool) (ls : list (list A)) :
  filter p (concat ls) = concat (map (filter p) ls).
Proof.
  induction ls as [|l r IH]; simpl; [reflexivity|].
  now rewrite filter_app, IH.
Qed.

Lemma filter_mergeAyah_block (tr en : Edition) (n : Z) (si : nat)
  (s : ApiSurah) (l : list ApiAyah) :
  forall j,
    filter (fun a => number (surah a) =? n)
           (mapi_from (mergeAyah tr en si s) j l)
    = if api_surah_number s =? n
      then mapi_from (mergeAyah tr en si s) j l
      else [].
Proof.
  induction l as [|x xs IH]; intros j; simpl.
  - now destruct (api_surah_number s =? n).
  - rewrite IH. now destruct (api_surah_number s =? n).
Qed.

Lemma ayahsOfSurah_other_sections (tr en : Edition) (n : Z) (ar : Edition) :
  ~ In n (map api_surah_number ar) ->
  forall i,
    ayahsOfSurah n
      (concat (mapi_from
                 (fun si s => mapi (mergeAyah tr en si s) (api_ayahs s))
                 i ar))
    = [].
Proof.
  unfold ayahsOfSurah.
  induction ar as [|s r IH]; intros Hn i; simpl; [reflexivity|].
  simpl in Hn. rewrite filter_app. unfold mapi at 1.
  rewrite filter_mergeAyah_block.
  destruct (Z.eqb_spec (api_surah_number s) n) as [E|NE]; [tauto|].
  simpl. apply IH. tauto.
Qed.

Lemma ayahsOfSurah_own_block (tr en : Edition) (ar : Edition) :
  forall (i K : nat) (s : ApiSurah),
    NoDup (map api_surah_number ar) ->
    nth_error ar K = Some s ->
    ayahsOfSurah (api_surah_number s)
      (concat (mapi_from
                 (fun si s => mapi (mergeAyah tr en si s) (api_ayahs s))
                 i ar))
    = mapi (mergeAyah tr en (i + K) s) (api_ayahs s).
Proof.
  induction ar as [|s0 r IH]; intros i K s Hnd Hs.
  - destruct K; discriminate.
  - simpl in Hnd. inversion Hnd as [|? ? Hnotin Hnd']; subst.
    simpl. unfold ayahsOfSurah. rewrite filter_app.
    fold (ayahsOfSurah (api_surah_number s)
            (concat (mapi_from
                       (fun si s => mapi (mergeAyah tr en si s) (api_ayahs s))
                       (S i) r))).
    unfold mapi at 1. rewrite filter_mergeAyah_block.
    destruct K as [|K]; simpl in Hs.
    + injection Hs as ->. rewrite Z.eqb_refl.
      rewrite ayahsOfSurah_other_sections by exact Hnotin.
      rewrite app_nil_r, Nat.add_0_r. reflexivity.
    + assert (Hin : In (api_surah_number s) (map api_surah_number r))
        by (apply in_map; eapply nth_error_In; exact Hs).
      destruct (Z.eqb_spec (api_surah_number s0) (api_surah_number s))
        as [E|NE]; [rewrite E in Hnotin; contradiction|].
      simpl. rewrite (IH (S i) K s Hnd' Hs). do 2 f_equal. lia.
Qed.

(** X2. When the section identifiers of the recitation edition are
    distinct, the filtered item list of the selected section [K] is that
    section's own merged items, in their order: it has as many items as
    the section, and its [N]-th item is the merge at position [(K, N)]. *)
Theorem filteredAyahs_is_section_block :
  forall (ar tr en : Edition) (st : State) (K : nat) (s : ApiSurah),
    NoDup (map api_surah_number ar) ->
    nth_error ar K = Some s ->
    api_surah_number s <> 0 ->
    ayahs st = combined ar tr en ->
    currentSurah st = Some (api_surah_number s) ->
    filteredAyahs st = mapi (mergeAyah tr en K s) (api_ayahs s) /\
    length (filteredAyahs st) = length (api_ayahs s) /\
    (forall N a, nth_error (api_ayahs s) N = Some a ->
                 nth_error (filteredAyahs st) N
                 = Some (mergeAyah tr en K s N a)).
Proof.
  intros ar tr en st K s Hnd Hs Hn Ha Hc.
  assert (E : filteredAyahs st = mapi (mergeAyah tr en K s) (api_ayahs s)).
  { rewrite (filteredAyahs_of_selected _ st Hc Hn), Ha.
    exact (ayahsOfSurah_own_block tr en ar 0%nat K s Hnd Hs). }
  rewrite E. split; [reflexivity|]. split; [apply mapi_length|].
  intros N a HN. now apply nth_error_mapi.
Qed.

(* ------------------------------------------------------------------ *)
(** ** Invariants of the event loop *)

Section Invariant.

(** A property [P] of the state and a property [Q] of the pending code
    that every handler, the render and the code behind a timer keep. *)
Variable P : State -> Prop.
Variable Q : Pending -> Prop.

Hypothesis P_render : forall st, P st -> P (render st).
Hypothesis P_click : forall s st, In s (surahs st) -> P st ->
                                  P (fst (onClickSurah s st)).
Hypothesis P_play : forall i st, P st -> P (fst (handlePlayAyah i st)).
Hypothesis P_ended : forall st, P st -> P (fst (fst (handleEnded st))).
Hypothesis Q_ended : forall st delay p,
    P st -> snd (handleEnded st) = Some (delay, p) -> Q p.
Hypothesis P_resume : forall p st, Q p -> P st -> P (fst (resume p st)).

Definition holds (w : World) : Prop :=
  P (state w) /\ Forall (fun x => Q (snd x)) (timers w).

Lemma schedule_Forall (due : Z) (p : Pending) (ts : list (Z * Pending)) :
  Q p -> Forall (fun x => Q (snd x)) ts ->
  Forall (fun x => Q (snd x)) (schedule due p ts).
Proof.
  intros Hp. induction ts as [|[d q] rest IH]; intros H; simpl.
  - constructor; [exact Hp | constructor].
  - inversion H as [|? ? Hq Hrest]; subst.
    destruct (d <=? due).
    + constructor; [exact Hq | now apply IH].
    + constructor; [exact Hp | exact H].
Qed.

Lemma expire_holds (t : Z) (ts : list (Z * Pending)) :
  forall st tr,
    P st -> Forall (fun x => Q (snd x)) ts -> holds (expire t ts st tr).
Proof.
  induction ts as [|[due p] rest IH]; intros st tr Hp Hq; simpl.
  - split; [exact Hp | constructor].
  - inversion Hq as [|? ? Hq1 Hq2]; subst. simpl in Hq1.
    destruct (due <=? t).
    + pose proof (P_resume p st Hq1 Hp) as H.
      destruct (resume p st) as [st' out]. simpl in H.
      apply IH; [now apply P_render | exact Hq2].
    + split; [exact Hp | exact Hq].
Qed.

Lemma dispatch_holds (t : Z) (e : Event) (w : World) :
  holds w -> holds (dispatch t e w).
Proof.
  intros [Hp Hq]. unfold dispatch.
  destruct (expire_holds t (timers w) (state w) (trace w) Hp Hq)
    as [Hp1 Hq1].
  destruct e as [k|i|].
  - destruct (nth_error _ k) as [s|] eqn:Ek; [|now split].
    pose proof (P_click s _ (nth_error_In _ _ Ek) Hp1) as H.
    destruct (onClickSurah s _) as [st' out]. simpl in H.
    split; [now apply P_render | exact Hq1].
  - pose proof (P_play i _ Hp1) as H.
    destruct (handlePlayAyah i _) as [st' out]. simpl in H.
    split; [now apply P_render | exact Hq1].
  - pose proof (P_ended _ Hp1) as H.
    pose proof (Q_ended (state (expire t (timers w) (state w) (trace w))))
      as HQ.
    destruct (handleEnded _) as [[st' out] timer]. simpl in H, HQ.
    split; [now apply P_render|]. simpl.
    destruct timer as [[delay p]|]; [|exact Hq1].
    apply schedule_Forall; [|exact Hq1]. now apply (HQ delay p).
Qed.

Lemma run_holds (evs : list (Z * Event)) :
  forall w, holds w -> holds (run evs w).
Proof.
  induction evs as [|[t e] rest IH]; intros w H; simpl; [exact H|].
  apply IH, dispatch_holds, H.
Qed.

End Invariant.

(** What each handler leaves of the loaded content. *)
Lemma onClickSurah_content (s : Surah) (st : State) :
  ayahs (fst (onClickSurah s st)) = ayahs st /\
  surahs (fst (onClickSurah s st)) = surahs st.
Proof.
  unfold onClickSurah. destruct (audioRef st); [|now split].
  now destruct (find (fun a => number (surah a) =? number s) (ayahs st)).
Qed.

Lemma handlePlayAyah_content (i : Z) (st : State) :
  ayahs (fst (handlePlayAyah i st)) = ayahs st /\
  surahs (fst (handlePlayAyah i st)) = surahs st /\
  currentSurah (fst (handlePlayAyah i st)) = currentSurah st.
Proof.
  unfold handlePlayAyah.
  destruct (idx (filteredAyahs st) i); [|now repeat split].
  destruct (audioRef st); now repeat split.
Qed.

Lemma handleEnded_content (st : State) :
  ayahs (fst (fst (handleEnded st))) = ayahs st /\
  surahs (fst (fst (handleEnded st))) = surahs st /\
  currentSurah (fst (fst (handleEnded st))) = currentSurah st.
Proof.
  unfold handleEnded.
  destruct (currentAyah st); [|now repeat split].
  destruct (audioRef st); [|now repeat split].
  destruct (len (filteredAyahs st) =? 0); [now repeat split|].
  destruct (_ <? _).
  - destruct (idx (filteredAyahs st) _); now repeat split.
  - destruct (idx (surahs st) _); now repeat split.
Qed.

Lemma resume_content (p : Pending) (st : State) :
  ayahs (fst (resume p st)) = ayahs st /\
  surahs (fst (resume p st)) = surahs st.
Proof.
  destruct p as [|ns ays]; simpl.
  - now destruct (audioRef st).
  - now destruct (ayahsOfSurah (number ns) ays), (audioRef st).
Qed.

Lemma handleEnded_timer (st : State) (delay : Z) (p : Pending) :
  snd (handleEnded st) = Some (delay, p) ->
  p = ResumePlay \/
  exists nextSurah, In nextSurah (surahs st) /\
                    p = ResumeNextSurah nextSurah (ayahs st).
Proof.
  unfold handleEnded.
  destruct (currentAyah st); [|discriminate].
  destruct (audioRef st); [|discriminate].
  destruct (len (filteredAyahs st) =? 0); [discriminate|].
  destruct (_ <? _).
  - destruct (idx (filteredAyahs st) _); [|discriminate].
    intros [= _ <-]. now left.
  - destruct (idx (surahs st) _) as [ns|] eqn:E; [|discriminate].
    intros [= _ <-]. right. exists ns. split; [|reflexivity].
    unfold idx in E. destruct (_ <? 0); [discriminate|].
    eapply nth_error_In; exact E.
Qed.

Lemma onClickSurah_fields (s : Surah) (st : State) :
  currentSurah (fst (onClickSurah s st)) = Some (number s) /\
  currentAyah (fst (onClickSurah s st)) = Some 0.
Proof.
  unfold onClickSurah. destruct (audioRef st); [|now split].
  now destruct (find (fun a => number (surah a) =? number s) (ayahs st)).
Qed.

Lemma resume_next_fields (ns : Surah) (ays : list Ayah) (st : State) :
  currentSurah (fst (resume (ResumeNextSurah ns ays) st)) = Some (number ns) /\
  currentAyah (fst (resume (ResumeNextSurah ns ays) st)) = Some 0.
Proof.
  simpl. now destruct (ayahsOfSurah (number ns) ays), (audioRef st).
Qed.

Lemma holds_content (A : list Ayah) (L : list Surah)
  (evs : list (Z * Event)) (w : World) :
  ayahs (state w) = A -> surahs (state w) = L ->
  holds (fun st => ayahs st = A /\ surahs st = L) (fun _ => True)
        (run evs w).
Proof.
  intros HA HL. apply run_holds.
  - intros st H. exact H.
  - intros s st _ [H1 H2].
    destruct (onClickSurah_content s st) as [E1 E2]. now rewrite E1, E2.
  - intros i st [H1 H2].
    destruct (handlePlayAyah_content i st) as (E1 & E2 & _).
    now rewrite E1, E2.
  - intros st [H1 H2].
    destruct (handleEnded_content st) as (E1 & E2 & _).
    now rewrite E1, E2.
  - trivial.
  - intros p st _ [H1 H2].
    destruct (resume_content p st) as [E1 E2]. now rewrite E1, E2.
  - split; [now split|]. apply Forall_forall. trivial.
Qed.

(** X3. No event changes the loaded content: after any sequence of
    clicks, ends of playback and timer expiries, the item list and the
    section list are those the run started with. *)
Theorem run_keeps_content :
  forall (evs : list (Z * Event)) (w : World),
    ayahs (state (run evs w)) = ayahs (state w) /\
    surahs (state (run evs w)) = surahs (state w).
Proof.
  intros evs w.
  exact (proj1 (holds_content _ _ evs w eq_refl eq_refl)).
Qed.

(** X4. Nothing deselects: once a section is selected, a section stays
    selected through every later event, and so does an item once one is
    selected. *)
Theorem run_keeps_selection :
  forall (evs : list (Z * Event)) (w : World),
    (currentSurah (state w) <> None ->
     currentSurah (state (run evs w)) <> None) /\
    (currentAyah (state w) <> None ->
     currentAyah (state (run evs w)) <> None).
Proof.
  intros evs w. split; intros Hw.
  - assert (H : holds (fun st => currentSurah st <> None) (fun _ => True)
                      (run evs w)).
    { apply run_holds.
      - intros st H. exact H.
      - intros s st _ _. cbv beta.
        now rewrite (proj1 (onClickSurah_fields s st)).
      - intros i st H.
        destruct (handlePlayAyah_content i st) as (_ & _ & E). now rewrite E.
      - intros st H.
        destruct (handleEnded_content st) as (_ & _ & E). now rewrite E.
      - trivial.
      - intros [|ns ays] st _ H.
        + now rewrite resume_play_state.
        + cbv beta. now rewrite (proj1 (resume_next_fields ns ays st)).
      - split; [exact Hw|]. apply Forall_forall. trivial. }
    exact (proj1 H).
  - assert (H : holds (fun st => currentAyah st <> None) (fun _ => True)
                      (run evs w)).
    { apply run_holds.
      - intros st H. exact H.
      - intros s st _ _. cbv beta.
        now rewrite (proj2 (onClickSurah_fields s st)).
      - intros i st H. unfold handlePlayAyah.
        destruct (idx (filteredAyahs st) i); [|exact H].
        destruct (audioRef st); [discriminate | exact H].
      - intros st H. cbv beta. unfold handleEnded.
        destruct (currentAyah st) as [c|] eqn:Ec; [|congruence].
        destruct (audioRef st); [|simpl; congruence].
        destruct (len (filteredAyahs st) =? 0); [simpl; congruence|].
        destruct (_ <? _).
        + destruct (idx (filteredAyahs st) _); discriminate.
        + destruct (idx (surahs st) _); simpl; congruence.
      - trivial.
      - intros [|ns ays] st _ H.
        + now rewrite resume_play_state.
        + cbv beta. now rewrite (proj2 (resume_next_fields ns ays st)).
      - split; [exact Hw|]. apply Forall_forall. trivial. }
    exact (proj1 H).
Qed.

(* ------------------------------------------------------------------ *)
(** ** Validity of the item index after a load *)

Lemma validIndex_zero (st : State) :
  currentAyah st = Some 0 -> filteredAyahs st <> [] -> validIndex st.
Proof.
  intros E H. unfold validIndex, len. rewrite E.
  destruct (filteredAyahs st); [contradiction | simpl; lia].
Qed.

Lemma handlePlayAyah_validIndex (i : Z) (st : State) :
  validIndex st -> validIndex (fst (handlePlayAyah i st)).
Proof.
  intros H. unfold handlePlayAyah.
  destruct (idx (filteredAyahs st) i) as [a|] eqn:E; [|exact H].
  destruct (audioRef st); [|exact H].
  apply idx_Some_range in E. exact E.
Qed.

Lemma handleEnded_validIndex (st : State) :
  validIndex st -> validIndex (fst (fst (handleEnded st))).
Proof.
  intros Hv. unfold handleEnded.
  destruct (currentAyah st) as [cur|] eqn:Ec; [|exact Hv].
  destruct (audioRef st); [|exact Hv].
  destruct (len (filteredAyahs st) =? 0); [exact Hv|].
  destruct (Z.ltb_spec (cur + 1) (len (filteredAyahs st))).
  - unfold validIndex in Hv. rewrite Ec in Hv.
    destruct (idx (filteredAyahs st) (cur + 1));
      change (0 <= cur + 1 < len (filteredAyahs st)); lia.
  - destruct (idx (surahs st) _); exact Hv.
Qed.

Lemma combined_has_section_items (ar tr en : Edition) (s : ApiSurah) :
  In s ar -> api_ayahs s <> [] ->
  ayahsOfSurah (api_surah_number s) (combined ar tr en) <> [].
Proof.
  intros Hin Hne.
  destruct (In_nth_error _ _ Hin) as [K HK].
  destruct (api_ayahs s) as [|a r] eqn:Ea; [contradiction|].
  assert (H0 : nth_error (api_ayahs s) 0 = Some a) by now rewrite Ea.
  pose proof (nth_error_blocks tr en ar 0%nat K 0%nat s a HK H0) as Hb.
  apply nth_error_In in Hb.
  assert (Hf : In (mergeAyah tr en (0 + K) s 0 a)
                  (ayahsOfSurah (api_surah_number s) (combined ar tr en))).
  { unfold ayahsOfSurah. apply filter_In. split; [exact Hb|].
    simpl. apply Z.eqb_refl. }
  intros E. rewrite E in Hf. contradiction.
Qed.

(** X5. When every section of the recitation edition has a non-zero
    identifier and at least one item, the item index is valid, whenever
    present, after every sequence of clicks, ends of playback and timer
    expiries that follows the load. *)
Theorem index_valid_after_load :
  forall (ar tr en : Edition) (evs : list (Z * Event)),
    (forall s, In s ar -> api_surah_number s <> 0 /\ api_ayahs s <> []) ->
    validIndex (state (run evs (boot ar tr en))).
Proof.
  intros ar tr en evs Hall.
  set (A := combined ar tr en). set (L := surahList ar).
  assert (F : forall s, In s L ->
                        number s <> 0 /\ ayahsOfSurah (number s) A <> []).
  { intros s Hs. unfold L, surahList in Hs. apply in_map_iff in Hs.
    destruct Hs as (s0 & <- & Hs0). simpl.
    destruct (Hall s0 Hs0) as [Hn He]. split; [exact Hn|].
    now apply combined_has_section_items. }
  assert (Z0 : forall s st, In s L -> ayahs st = A ->
                            currentSurah st = Some (number s) ->
                            currentAyah st = Some 0 -> validIndex st).
  { intros s st Hs HA Hc Ha. destruct (F s Hs) as [Hn He].
    apply validIndex_zero; [exact Ha|].
    now rewrite (filteredAyahs_of_selected _ st Hc Hn), HA. }
  assert (H : holds (fun st => ayahs st = A /\ surahs st = L /\ validIndex st)
                    (pendingFor A L) (run evs (boot ar tr en))).
  { apply run_holds.
    - intros st H. exact H.
    - intros s st Hs (HA & HL & _).
      destruct (onClickSurah_content s st) as [E1 E2].
      destruct (onClickSurah_fields s st) as [E3 E4].
      split; [congruence|]. split; [congruence|].
      apply (Z0 s); [congruence | congruence | exact E3 | exact E4].
    - intros i st (HA & HL & Hv).
      destruct (handlePlayAyah_content i st) as (E1 & E2 & _).
      split; [congruence|]. split; [congruence|].
      now apply handlePlayAyah_validIndex.
    - intros st (HA & HL & Hv).
      destruct (handleEnded_content st) as (E1 & E2 & _).
      split; [congruence|]. split; [congruence|].
      now apply handleEnded_validIndex.
    - intros st delay p (HA & HL & _) Ht.
      destruct (handleEnded_timer st delay p Ht) as [->|(ns & Hns & ->)];
        simpl; [trivial|]. split; congruence.
    - intros [|ns ays] st Hq (HA & HL & Hv).
      + now rewrite resume_play_state.
      + destruct Hq as [Hns ->].
        destruct (resume_content (ResumeNextSurah ns A) st) as [E1 E2].
        destruct (resume_next_fields ns A st) as [E3 E4].
        split; [congruence|]. split; [congruence|].
        apply (Z0 ns); [exact Hns | congruence | exact E3 | exact E4].
    - split; [|constructor]. simpl. repeat split. }
  exact (proj2 (proj2 (proj1 H))).
Qed.

Lemma findIndex_upper {A : Type} (p : A -> bool) (l : list A) :
  findIndex p l < len l.
Proof.
  unfold len. induction l as [|x r IH]; simpl findIndex; [simpl; lia|].
  rewrite length_cons. destruct (p x); [lia|].
  destruct (Z.ltb_spec (findIndex p r) 0); lia.
Qed.

(** X6. After a load, whenever the filtered item list is not empty the
    selected section is one of the section list, so that [findIndex]
    finds it: the lookup of the next section never starts from -1. *)
Theorem selected_section_is_listed :
  forall (ar tr en : Edition) (evs : list (Z * Event)),
    let st := state (run evs (boot ar tr en)) in
    filteredAyahs st <> [] ->
    exists n,
      currentSurah st = Some n /\
      In n (map number (surahs st)) /\
      0 <= findIndex (fun s => strictEq (number s) (currentSurah st))
                     (surahs st)
        < len (surahs st).
Proof.
  intros ar tr en evs st Hne.
  destruct (proj1 (holds_content (combined ar tr en) (surahList ar) evs
                     (boot ar tr en) eq_refl eq_refl)) as [HA HL].
  fold st in HA, HL.
  destruct (filteredAyahs st) as [|a r] eqn:Ef; [contradiction|].
  assert (Hin : In a (filteredAyahs st)) by (rewrite Ef; now left).
  unfold filteredAyahs in Hin.
  destruct (currentSurah st) as [n|] eqn:Ec; [|contradiction].
  destruct (truthy (Some n)); [|contradiction].
  unfold ayahsOfSurah in Hin. apply filter_In in Hin.
  destruct Hin as [Hin Hn]. apply Z.eqb_eq in Hn.
  rewrite HA in Hin. apply combined_surah_listed in Hin.
  rewrite <- HL in Hin.
  exists n. split; [reflexivity|]. split.
  - rewrite <- Hn. now apply in_map.
  - split; [|apply findIndex_upper].
    apply (findIndex_found _ _ (surah a) Hin). simpl. now apply Z.eqb_eq.
Qed.

(* ------------------------------------------------------------------ *)
(** ** Clicks on what the render shows *)

(** X7. In a rendered state every card of the item list is playable: the
    click on the [k]-th card selects item [k], loads its locator and
    issues one play command for it. *)
Theorem card_click_plays :
  forall (st : State) (k : nat) (a : Ayah),
    rendered st ->
    nth_error (filteredAyahs st) k = Some a ->
    handlePlayAyah (Z.of_nat k) st
    = (setCurrentAyah (Z.of_nat k) (setSrc (audio a) st), [Play (audio a)]).
Proof.
  intros st k a Hr Hk.
  assert (Hlen : 0 < len (filteredAyahs st)).
  { unfold len. assert (H : nth_error (filteredAyahs st) k <> None)
      by congruence.
    apply nth_error_Some in H. lia. }
  destruct (rendered_mounted st Hr (filteredAyahs_truthy st Hlen))
    as [src Hsrc].
  apply (handlePlayAyah_valid _ st a src); [|exact Hsrc].
  now rewrite idx_nat.
Qed.

(** X8. With the first item of section [s] being [a], the click on the
    button of [s] in a rendered state issues the play command for [a]
    exactly when a section was selected before the click; from the idle
    state it issues none.  In both cases the position becomes [(s, 0)]. *)
Theorem section_click_plays_when_mounted :
  forall (st : State) (s : Surah) (a : Ayah),
    rendered st ->
    hd_error (ayahsOfSurah (number s) (ayahs st)) = Some a ->
    snd (onClickSurah s st)
    = (if truthy (currentSurah st) then [Play (audio a)] else []) /\
    position (fst (onClickSurah s st)) = (Some (number s), Some 0).
Proof.
  intros st s a Hr Hh. split; [|apply onClickSurah_position].
  destruct (truthy (currentSurah st)) eqn:Ht.
  - destruct (rendered_mounted st Hr Ht) as [src Hsrc].
    now rewrite (onClickSurah_mounted s st a src Hsrc Hh).
  - now rewrite (onClickSurah_unmounted s st (rendered_idle st Hr Ht)).
Qed.

(* ------------------------------------------------------------------ *)
(** ** The "Now Playing" panel and the cards *)




Lemma count_playing_from (cur : Z) (f : nat -> Ayah -> Card) (l : list Ayah) :
  (forall i a, card_playing (f i a) = (Z.of_nat i =? cur)) ->
  forall j,
    length (filter card_playing (mapi_from f j l))
    = if (Z.of_nat j <=? cur) && (cur <? Z.of_nat j + len l)
      then 1%nat else 0%nat.
Proof.
  intros Hf. unfold len.
  induction l as [|x r IH]; intros j.
  - simpl. destruct (Z.leb_spec (Z.of_nat j) cur),
      (Z.ltb_spec cur (Z.of_nat j + 0)); simpl; try reflexivity; lia.
  - simpl mapi_from. simpl filter. rewrite Hf, length_cons.
    destruct (Z.eqb_spec (Z.of_nat j) cur) as [E|NE].
    + simpl length. rewrite IH.
      destruct (Z.leb_spec (Z.of_nat (S j)) cur); [lia|].
      destruct (Z.leb_spec (Z.of_nat j) cur); [|lia].
      destruct (Z.ltb_spec cur (Z.of_nat j + Z.of_nat (S (length r))));
        [reflexivity | lia].
    + rewrite IH.
      destruct (Z.leb_spec (Z.of_nat (S j)) cur),
        (Z.ltb_spec cur (Z.of_nat (S j) + Z.of_nat (length r))),
        (Z.leb_spec (Z.of_nat j) cur),
        (Z.ltb_spec cur (Z.of_nat j + Z.of_nat (S (length r))));
        simpl; try reflexivity; lia.
Qed.

(** X10. There is one card per item of the filtered list, and the cards
    marked as playing are exactly one when the item index is valid and
    none otherwise. *)
Theorem cards_one_playing :
  forall (st : State),
    length (cards st) = length (filteredAyahs st) /\
    (validIndex st -> currentAyah st <> None ->
     length (filter card_playing (cards st)) = 1%nat) /\
    (~ validIndex st \/ currentAyah st = None ->
     length (filter card_playing (cards st)) = 0%nat).
Proof.
  intros st. unfold cards. split; [apply mapi_length|].
  unfold validIndex.
  destruct (currentAyah st) as [cur|]; simpl strictEq.
  - unfold mapi. rewrite (count_playing_from cur) by reflexivity.
    simpl Z.of_nat. split.
    + intros Hv _.
      destruct (Z.leb_spec 0 cur), (Z.ltb_spec cur (0 + len (filteredAyahs st)));
        simpl; try reflexivity; lia.
    + intros [Hv|Hv]; [|discriminate].
      destruct (Z.leb_spec 0 cur), (Z.ltb_spec cur (0 + len (filteredAyahs st)));
        simpl; try reflexivity. exfalso. apply Hv. lia.
  - split; [intros _ H; now contradiction H|]. intros _.
    unfold mapi.
    assert (G : forall (l : list Ayah) (j : nat),
               filter card_playing
                 (mapi_from
                    (fun i a =>
                       {| card_label := Z.of_nat i + 1;
                          card_playing := false;
                          card_text := text a;
                          card_transliteration :=
                            whenNonEmpty (transliteration a);
                          card_translation := whenNonEmpty (translation a) |})
                    j l) = []).
    { induction l as [|x r IH]; intros j; simpl; [reflexivity | apply IH]. }
    now rewrite G.
Qed.

(* ------------------------------------------------------------------ *)
(** ** Playing through a section *)

Lemma expire_all_due (t : Z) (ts : list (Z * Pending)) :
  Forall (fun x => fst x <= t) ts ->
  forall st tr, expire t ts st tr = drain ts st tr.
Proof.
  induction ts as [|[due p] rest IH]; intros H st tr; simpl; [reflexivity|].
  inversion H as [|? ? Hd Hrest]; subst. simpl in Hd.
  destruct (Z.leb_spec due t); [|lia].
  destruct (resume p st) as [st' out]. now apply IH.
Qed.

Lemma drain_timers (ts : list (Z * Pending)) :
  forall st tr, timers (drain ts st tr) = [].
Proof.
  induction ts as [|[due p] rest IH]; intros st tr; simpl; [reflexivity|].
  destruct (resume p st) as [st' out]. apply IH.
Qed.

Lemma expire_quiet (t : Z) (w : World) :
  timers w = [] -> expire t (timers w) (state w) (trace w) = w.
Proof. destruct w as [st ts tr]; simpl. now intros ->. Qed.

Lemma settle_quiet (w : World) : timers w = [] -> settle w = w.
Proof. destruct w as [st ts tr]; simpl. now intros ->. Qed.

Lemma dispatch_settled (t : Z) (e : Event) (w : World) :
  Forall (fun x => fst x <= t) (timers w) ->
  dispatch t e w = dispatch t e (settle w).
Proof.
  intros H. unfold dispatch.
  rewrite (expire_all_due t _ H).
  rewrite (expire_quiet t (settle w)) by apply drain_timers.
  reflexivity.
Qed.

Lemma run_settled (evs : list (Z * Event)) (w : World) :
  (forall first, hd_error evs = Some first ->
                 Forall (fun x => fst x <= fst first) (timers w)) ->
  settle (run evs w) = settle (run evs (settle w)).
Proof.
  destruct evs as [|[t e] rest]; simpl; intros H.
  - symmetry. apply settle_quiet, drain_timers.
  - now rewrite (dispatch_settled t e w (H (t, e) eq_refl)).
Qed.

Lemma skipn_nth_error {A : Type} (l : list A) :
  forall (n : nat) (x : A),
    nth_error l n = Some x -> skipn n l = x :: skipn (S n) l.
Proof.
  induction l as [|y r IH]; intros n x E.
  - destruct n; discriminate.
  - destruct n as [|n]; simpl in *.
    + now injection E as ->.
    + now apply IH.
Qed.

(** X11. Playing through: in a section with the item index at [i] and
    nothing pending, [k] ends of playback at least a second apart, with
    [i + k] still an index of the section, leave the Playback Position at
    [(S, i + k)]; the commands issued are one play command per item
    [i + 1 .. i + k], in order, each one second after the end of the
    item before. *)
Theorem playback_runs_through_section :
  forall (k : nat) (w : World) (t gap S : Z) (i : nat),
    timers w = [] -> rendered (state w) ->
    currentSurah (state w) = Some S ->
    currentAyah (state w) = Some (Z.of_nat i) ->
    (i + k < length (filteredAyahs (state w)))%nat ->
    1000 <= gap ->
    let w' := settle (run (endedEvery t gap k) w) in
    position (state w') = (Some S, Some (Z.of_nat (i + k))) /\
    timers w' = [] /\
    trace w'
    = trace w ++ pausedPlays t gap
                   (firstn k (skipn (Datatypes.S i)
                                    (filteredAyahs (state w)))).
Proof.
  induction k as [|k IH]; intros w t gap S i Ht Hr Hs Hi Hlen Hgap; cbv zeta.
  - simpl run. rewrite (settle_quiet w Ht), Nat.add_0_r.
    split; [unfold position; now rewrite Hs, Hi|].
    split; [exact Ht|]. simpl. now rewrite app_nil_r.
  - cbn [endedEvery run].
    assert (Htr : truthy (currentSurah (state w)) = true)
      by (apply filteredAyahs_truthy; unfold len; lia).
    destruct (rendered_mounted _ Hr Htr) as [src Ha].
    destruct (nth_error (filteredAyahs (state w)) (Datatypes.S i))
      as [a|] eqn:Ea;
      [|apply nth_error_None in Ea; lia].
    assert (Hidx : idx (filteredAyahs (state w)) (Z.of_nat i + 1) = Some a).
    { replace (Z.of_nat i + 1) with (Z.of_nat (Datatypes.S i)) by lia.
      now rewrite idx_nat. }
    rewrite (dispatch_Ended_quiet t w Ht).
    rewrite (handleEnded_advance _ (Z.of_nat i) a src Hi Ha Hidx).
    set (st1 := setSrc (audio a) (setCurrentAyah (Z.of_nat i + 1) (state w))).
    assert (R1 : render st1 = st1)
      by (apply (render_mounted st1 (audio a)); [exact Htr | reflexivity]).
    rewrite R1, app_nil_r.
    set (w1 := mkWorld st1 [(t + 1000, ResumePlay)] (trace w)).
    rewrite (run_settled (endedEvery (t + gap) gap k) w1).
    + assert (Es : settle w1
                   = mkWorld st1 [] (trace w ++ [(t + 1000, Play (audio a))])).
      { unfold settle, w1. simpl. now rewrite R1. }
      rewrite Es.
      destruct (IH (mkWorld st1 []
                      (trace w ++ [(t + 1000, Play (audio a))]))
                   (t + gap) gap S (Datatypes.S i))
        as (Hp & Htm & Htrace); try reflexivity; try assumption.
      * simpl. unfold st1. simpl. f_equal. lia.
      * simpl. change (filteredAyahs st1) with (filteredAyahs (state w)).
        lia.
      * split; [|split].
        -- rewrite Hp. do 2 f_equal. lia.
        -- exact Htm.
        -- rewrite Htrace. simpl trace. simpl state.
           change (filteredAyahs st1) with (filteredAyahs (state w)).
           rewrite (skipn_nth_error _ _ _ Ea). simpl.
           now rewrite <- app_assoc.
    + intros first Hf. constructor; [|constructor]. simpl.
      destruct k; simpl in Hf; [discriminate|].
      injection Hf as <-. simpl. lia.
Qed.

(* ------------------------------------------------------------------ *)
(** ** The next section, without an ordering assumption *)

Lemma findIndex_not_found {A : Type} (p : A -> bool) (l : list A) :
  (forall x, In x l -> p x = false) -> findIndex p l = -1.
Proof.
  induction l as [|y r IH]; intros H; simpl; [reflexivity|].
  rewrite (H y (or_introl eq_refl)).
  rewrite IH by (intros x Hx; apply H; now right). reflexivity.
Qed.

Lemma successor_in_list (l1 : list Surah) :
  forall (s : Surah) (rest : list Surah),
    NoDup (map number (l1 ++ s :: rest)) ->
    idx (l1 ++ s :: rest)
        (findIndex (fun x => strictEq (number x) (Some (number s)))
                   (l1 ++ s :: rest) + 1)
    = hd_error rest.
Proof.
  induction l1 as [|y l1 IH]; intros s rest Hnd.
  - simpl. rewrite Z.eqb_refl. now destruct rest.
  - simpl in Hnd. inversion Hnd as [|? ? Hnotin Hnd']; subst.
    set (p := fun x => strictEq (number x) (Some (number s))).
    change ((y :: l1) ++ s :: rest) with (y :: (l1 ++ s :: rest)).
    simpl findIndex.
    assert (Ep : p y = false).
    { unfold p. simpl. apply Z.eqb_neq. intros E. apply Hnotin.
      rewrite E. apply in_map, in_elt. }
    rewrite Ep.
    assert (F : 0 <= findIndex p (l1 ++ s :: rest)).
    { apply (findIndex_found p _ s); [apply in_elt|].
      unfold p. simpl. apply Z.eqb_refl. }
    destruct (Z.ltb_spec (findIndex p (l1 ++ s :: rest)) 0); [lia|].
    rewrite idx_cons by lia. now apply IH.
Qed.

(** X12. At the last item of a section, with distinct section
    identifiers, the end of playback schedules the switch to the section
    that follows the current one in the section list, whatever the order
    of the identifiers; behind the last section of the list it schedules
    nothing. *)
Theorem ended_takes_list_neighbour :
  forall (st : State) (i : Z) (src : string) (l1 rest : list Surah)
         (s : Surah),
    currentAyah st = Some i -> audioRef st = Some src ->
    0 < len (filteredAyahs st) -> len (filteredAyahs st) <= i + 1 ->
    NoDup (map number (surahs st)) ->
    surahs st = l1 ++ s :: rest ->
    currentSurah st = Some (number s) ->
    handleEnded st
    = (st, [],
       match rest with
       | nextSurah :: _ => Some (2000, ResumeNextSurah nextSurah (ayahs st))
       | [] => None
       end).
Proof.
  intros st i src l1 rest s Hc Ha Hl Hi Hnd Hs Hcur.
  rewrite (handleEnded_last st i src Hc Ha Hl Hi).
  rewrite Hcur, Hs. rewrite Hs in Hnd.
  rewrite (successor_in_list l1 s rest Hnd).
  now destruct rest.
Qed.

(** X14. With nothing pending, the end of playback is ignored while no
    item is selected or the filtered item list is empty: the world stays
    as it is, no command is issued and no timer is set. *)
Theorem ended_ignored_when_idle :
  forall (w : World) (t : Z),
    timers w = [] -> rendered (state w) ->
    currentAyah (state w) = None \/ filteredAyahs (state w) = [] ->
    dispatch t Ended w = w.
Proof.
  intros w t Ht Hr Hidle.
  rewrite (dispatch_Ended_quiet t w Ht), handleEnded_idle.
  - rewrite Hr, app_nil_r. destruct w as [st ts tr]; simpl in *. now subst.
  - destruct Hidle as [H|H]; [now left|]. right. right.
    unfold len. now rewrite H.
Qed.

(* ------------------------------------------------------------------ *)
(** ** The layout effects *)

Lemma scroll_effect_is_frame (prm : bool) (dom : Dom) (st : State)
  (sc : ScrollTo) :
  surahScrollEffect prm dom st = Some sc \/
  ayahScrollEffect prm dom st = Some sc ->
  exists container node, sc = scrollFrame prm container node.
Proof.
  intros [H|H].
  - unfold surahScrollEffect in H.
    destruct (currentSurah st); [|discriminate].
    destruct (_ =? -1); [discriminate|].
    destruct (getActiveSurahContext dom _) as [[c|] [n|]]; try discriminate.
    injection H as <-. now exists c, n.
  - unfold ayahScrollEffect in H.
    destruct (currentAyah st); [|discriminate].
    destruct (ayahScrollRef dom) as [c|]; [|discriminate].
    destruct (refAt _ _) as [n|]; [|discriminate].
    injection H as <-. now exists c, n.
Qed.

(** X15. Every scroll either layout effect requests has a non-negative
    target and is instantaneous exactly when reduced motion is preferred.
    The section effect requests nothing while no section is selected or
    the selected identifier is not in the section list; the item effect
    requests nothing while no item is selected, the item list has no
    container, or no card is registered at the item index. *)
Theorem scroll_requests :
  forall (prm : bool) (dom : Dom) (st : State),
    (forall sc,
        surahScrollEffect prm dom st = Some sc \/
        ayahScrollEffect prm dom st = Some sc ->
        (0 <= top sc)%Q /\ (behavior sc = BehaviorAuto <-> prm = true)) /\
    (currentSurah st = None \/
     (exists S, currentSurah st = Some S /\
                ~ In S (map number (surahs st))) ->
     surahScrollEffect prm dom st = None) /\
    (currentAyah st = None \/ ayahScrollRef dom = None \/
     (exists i, currentAyah st = Some i /\ refAt (ayahRefs dom) i = None) ->
     ayahScrollEffect prm dom st = None).
Proof.
  intros prm dom st. split; [|split].
  - intros sc H. destruct (scroll_effect_is_frame prm dom st sc H)
      as (c & n & ->).
    split; [apply Q.le_max_r|]. simpl.
    destruct prm; split; intros E; try reflexivity; discriminate.
  - unfold surahScrollEffect. intros [H|(S & HS & Hnot)]; [now rewrite H|].
    rewrite HS, findIndex_not_found; [reflexivity|].
    intros x Hx. simpl. apply Z.eqb_neq. intros E. apply Hnot.
    rewrite <- E. now apply in_map.
  - unfold ayahScrollEffect. intros [H|[H|(i & Hi & Hn)]].
    + now rewrite H.
    + rewrite H. now destruct (currentAyah st).
    + rewrite Hi, Hn. now destruct (ayahScrollRef dom).
Qed.

(** X16. Which list the section effect scrolls: the mobile list when it
    is visible and holds the button, else the desktop list when that one
    is visible and holds the button.  When neither holds, the container
    and the button are looked up separately, so that a hidden mobile
    container without the button is paired with the button of the desktop
    list.  No button is returned only when neither list has one. *)
Theorem surah_context_choice :
  forall (dom : Dom) (index : Z),
    let mobileNode := refAt (surahMobileRefs dom) index in
    let desktopNode := refAt (surahDesktopRefs dom) index in
    (isVisible (surahMobileScrollRef dom) = true -> mobileNode <> None ->
     getActiveSurahContext dom index
     = (surahMobileScrollRef dom, mobileNode)) /\
    (isVisible (surahMobileScrollRef dom) = false \/ mobileNode = None ->
     isVisible (surahScrollRef dom) = true -> desktopNode <> None ->
     getActiveSurahContext dom index = (surahScrollRef dom, desktopNode)) /\
    (forall mc dn,
        surahMobileScrollRef dom = Some mc -> attached mc = false ->
        mobileNode = None -> desktopNode = Some dn ->
        isVisible (surahScrollRef dom) = false ->
        getActiveSurahContext dom index = (Some mc, Some dn)) /\
    (snd (getActiveSurahContext dom index) = None <->
     mobileNode = None /\ desktopNode = None).
Proof.
  intros dom index. cbv zeta. unfold getActiveSurahContext.
  destruct (refAt (surahMobileRefs dom) index) as [mn|];
    destruct (refAt (surahDesktopRefs dom) index) as [dn|];
    destruct (surahMobileScrollRef dom) as [mc|];
    destruct (surahScrollRef dom) as [dc|]; simpl;
    try destruct (attached mc); try destruct (attached dc); simpl;
    repeat split; intros; try discriminate; try congruence;
    try tauto;
    repeat match goal with
           | H : _ \/ _ |- _ => destruct H
           | H : _ /\ _ |- _ => destruct H
           end;
    try discriminate; try congruence.
Qed.

(* ================================================================== *)
(** * Further worked instances *)

(** The first sample section, selected: its three merged items. *)
Lemma filteredAyahs_is_section_block_witness :
  length (filteredAyahs (state sample_playing)) = 3%nat /\
  option_map audio (nth_error (filteredAyahs (state sample_playing)) 2)
  = Some "https://cdn.example/3.mp3".
Proof.
  destruct (filteredAyahs_is_section_block sample_ar sample_tr sample_en
              (state sample_playing) 0
              (mkApiSurah 1 "al-fatiha" "The Opening"
                 [ mkApiAyah 1 (Some "https://cdn.example/1.mp3") "alif";
                   mkApiAyah 2 None "ba";
                   mkApiAyah 3 (Some "https://cdn.example/3.mp3") "ta" ]))
    as (_ & Hlen & Hnth).
  - simpl. repeat (constructor; [simpl; intuition discriminate|]).
    constructor.
  - reflexivity.
  - simpl. discriminate.
  - reflexivity.
  - reflexivity.
  - split; [exact Hlen|].
    rewrite (Hnth 2%nat (mkApiAyah 3 (Some "https://cdn.example/3.mp3") "ta")
               eq_refl).
    reflexivity.
Defined.

(** A section and an item stay selected over the end of the first
    item. *)
Lemma run_keeps_selection_witness :
  currentSurah (state (run [(5000, Ended)] sample_playing)) <> None /\
  currentAyah (state (run [(5000, Ended)] sample_playing)) <> None.
Proof.
  destruct (run_keeps_selection [(5000, Ended)] sample_playing) as [H1 H2].
  split; [apply H1 | apply H2]; vm_compute; discriminate.
Defined.

(** The first two sample sections have items: the index stays valid over
    a run that mixes clicks and ends of playback. *)
Lemma index_valid_after_load_witness :
  validIndex
    (state (run [(0, ClickSurah 0); (10, ClickAyah 2); (20, Ended);
                 (30, ClickSurah 1)]
                (boot (firstn 2 sample_ar) sample_tr sample_en))).
Proof.
  apply index_valid_after_load.
  simpl. intros s [<-|[<-|[]]]; split; discriminate.
Defined.

(** After the first click the first sample section is found at index 0 of
    the section list. *)
Lemma selected_section_is_listed_witness :
  exists n,
    currentSurah (state (run [(0, ClickSurah 0)]
                             (boot sample_ar sample_tr sample_en)))
    = Some n /\ n = 1.
Proof.
  destruct (selected_section_is_listed sample_ar sample_tr sample_en
              [(0, ClickSurah 0)]) as (n & Hn & _).
  - vm_compute. discriminate.
  - exists n. split; [exact Hn|].
    vm_compute in Hn. now injection Hn as <-.
Defined.

(** The click on the third card of the first sample section. *)
Lemma card_click_plays_witness :
  snd (handlePlayAyah 2 (state sample_playing))
  = [Play "https://cdn.example/3.mp3"].
Proof.
  pose proof (card_click_plays (state sample_playing) 2
                (mkAyah 3 "https://cdn.example/3.mp3" "ta" "" ""
                   (mkSurah 1 "al-fatiha" "The Opening"))) as H.
  change (Z.of_nat 2) with 2 in H.
  rewrite H; [reflexivity | vm_compute; reflexivity | reflexivity].
Defined.

(** The button of the second sample section: a play command when a
    section is selected, none from the idle state. *)
Lemma section_click_plays_when_mounted_witness :
  let s := mkSurah 2 "al-baqara" "The Cow" in
  snd (onClickSurah s (state sample_playing))
  = [Play "https://cdn.example/4.mp3"] /\
  snd (onClickSurah s (state (boot sample_ar sample_tr sample_en))) = [].
Proof.
  cbv zeta. split.
  - destruct (section_click_plays_when_mounted (state sample_playing)
                (mkSurah 2 "al-baqara" "The Cow")
                (mkAyah 4 "https://cdn.example/4.mp3" "tha" "" ""
                   (mkSurah 2 "al-baqara" "The Cow"))) as [H _].
    + vm_compute. reflexivity.
    + reflexivity.
    + rewrite H. reflexivity.
  - destruct (section_click_plays_when_mounted
                (state (boot sample_ar sample_tr sample_en))
                (mkSurah 2 "al-baqara" "The Cow")
                (mkAyah 4 "https://cdn.example/4.mp3" "tha" "" ""
                   (mkSurah 2 "al-baqara" "The Cow"))) as [H _].
    + reflexivity.
    + reflexivity.
    + rewrite H. reflexivity.
Defined.


(** Three cards for the playing sample, one of them marked. *)
Lemma cards_one_playing_witness :
  length (cards (state sample_playing)) = 3%nat /\
  length (filter card_playing (cards (state sample_playing))) = 1%nat.
Proof.
  destruct (cards_one_playing (state sample_playing)) as (Hl & H1 & _).
  split; [exact Hl|]. apply H1.
  - unfold validIndex. vm_compute. split; [discriminate | reflexivity].
  - vm_compute. discriminate.
Defined.

(** Two ends of playback, 1500 ms apart, from the first item of the
    first sample section: the empty locator at 6000, the third item at
    7500. *)
Lemma playback_runs_through_section_witness :
  let w' := settle (run (endedEvery 5000 1500 2) sample_playing) in
  position (state w') = (Some 1, Some 2) /\
  trace w' = trace sample_playing
             ++ [(6000, Play ""); (7500, Play "https://cdn.example/3.mp3")].
Proof.
  cbv zeta.
  destruct (playback_runs_through_section 2 sample_playing 5000 1500 1 0)
    as (Hp & _ & Ht).
  - reflexivity.
  - vm_compute. reflexivity.
  - reflexivity.
  - reflexivity.
  - vm_compute. lia.
  - lia.
  - split; [exact Hp | exact Ht].
Defined.

(** The last item of the first sample section: the second section of the
    list is next. *)
Lemma ended_takes_list_neighbour_witness :
  let st := state (dispatch 200 (ClickAyah 2) sample_playing) in
  snd (handleEnded st)
  = Some (2000, ResumeNextSurah (mkSurah 2 "al-baqara" "The Cow") (ayahs st)).
Proof.
  cbv zeta.
  rewrite (ended_takes_list_neighbour
             (state (dispatch 200 (ClickAyah 2) sample_playing)) 2
             "https://cdn.example/3.mp3" []
             [ mkSurah 2 "al-baqara" "The Cow";
               mkSurah 3 "al-imran" "The Family of Imran";
               mkSurah 4 "an-nisa" "The Women" ]
             (mkSurah 1 "al-fatiha" "The Opening")).
  - reflexivity.
  - reflexivity.
  - reflexivity.
  - vm_compute. reflexivity.
  - vm_compute. discriminate.
  - vm_compute. repeat (constructor; [simpl; intuition discriminate|]).
    constructor.
  - reflexivity.
  - reflexivity.
Defined.

(** The empty third sample section selected: an end of playback changes
    nothing. *)
Lemma ended_ignored_when_idle_witness :
  dispatch 5000 Ended (dispatch 300 (ClickSurah 2) sample_playing)
  = dispatch 300 (ClickSurah 2) sample_playing.
Proof.
  apply ended_ignored_when_idle.
  - reflexivity.
  - vm_compute. reflexivity.
  - right. reflexivity.
Defined.

(** A card at 10 in a list 400 high: the scroll is clamped to 0 and, with
    reduced motion, instantaneous; from the idle state the section effect
    requests nothing. *)
Lemma scroll_requests_witness :
  let dom := mkDom None None [] [] (Some (mkElem true 0 0 400))
                   [Some (mkElem true 10 50 0)] in
  ayahScrollEffect true dom (state sample_playing)
  = Some (mkScrollTo (Qmax (10 - 400 / 2 + 50 / 2) 0) BehaviorAuto) /\
  (0 <= Qmax (10 - 400 / 2 + 50 / 2) 0)%Q /\
  surahScrollEffect true dom (state (boot sample_ar sample_tr sample_en))
  = None.
Proof.
  cbv zeta.
  destruct (scroll_requests true
              (mkDom None None [] [] (Some (mkElem true 0 0 400))
                     [Some (mkElem true 10 50 0)])
              (state sample_playing)) as (H1 & _ & _).
  destruct (scroll_requests true
              (mkDom None None [] [] (Some (mkElem true 0 0 400))
                     [Some (mkElem true 10 50 0)])
              (state (boot sample_ar sample_tr sample_en))) as (_ & H2 & _).
  split; [reflexivity|]. split.
  - apply (H1 (mkScrollTo (Qmax (10 - 400 / 2 + 50 / 2) 0) BehaviorAuto)).
    right. reflexivity.
  - apply H2. left. reflexivity.
Defined.

(** A hidden mobile list without the button and a desktop button without
    a visible desktop list: the mobile container with the desktop
    button. *)
Lemma surah_context_choice_witness :
  let mc := mkElem false 0 0 300 in
  let dn := mkElem true 120 40 0 in
  getActiveSurahContext (mkDom (Some mc) None [] [Some dn] None []) 0
  = (Some mc, Some dn).
Proof.
  cbv zeta.
  destruct (surah_context_choice
              (mkDom (Some (mkElem false 0 0 300)) None []
                     [Some (mkElem true 120 40 0)] None []) 0)
    as (_ & _ & H & _).
  apply H; reflexivity.
Defined.
